(** * wkbcommon: the flat-coordinate codec of go-geom's WKB/EWKB encodings

    A shallow embedding of [encoding/wkbcommon/wkbcommon.go] and the proofs of
    its specification.  The Go functions are embedded with their own names.
    A function that reads from an [io.Reader] or writes to an [io.Writer] is a
    computation over an explicit stream state; it returns the Go result tuple
    (values and an optional [error]) or panics. *)

From Stdlib Require Import ZArith List Lia Bool Sorted.
From Stdlib Require Import SpecFloat.
From coqutil Require Import Byte Word.Interface Word.Properties Word.Naive.
From coqutil Require Import Word.LittleEndianList.
From Stdlib Require String Ascii DecimalString BinaryString DecimalZ DecimalPos.
Import ListNotations.
Import String.StringSyntax Ascii.AsciiSyntax.
Delimit Scope string_scope with string.
Delimit Scope char_scope with char.
Local Open Scope Z_scope.

(** ** The Go values the package works with *)

Module Go.

(** [len(s)], a Go [int]. *)
Definition len {A : Type} (s : list A) : Z := Z.of_nat (length s).

(** Conversion to [uint32]: the low 32 bits. *)
Definition uint32 (z : Z) : Z := z mod 2 ^ 32.

(** Arithmetic on [int] (64 bits, two's complement) wraps around. *)
Definition int_wrap (z : Z) : Z := (z + 2 ^ 63) mod 2 ^ 64 - 2 ^ 63.
Definition int_mul (a b : Z) : Z := int_wrap (a * b).

(** A [float64] is carried as its IEEE-754 bit pattern, a 64-bit word:
    [encoding/binary] moves it through [math.Float64bits] and
    [math.Float64frombits], which keep every bit (NaN payloads included). *)
Definition float64 : Type := Naive.word64.
Definition Float64bits (f : float64) : Z := word.unsigned f.
Definition Float64frombits (b : Z) : float64 := word.of_Z b.

(** The binary64 bit pattern of a floating-point number given as sign,
    mantissa and exponent (normal and subnormal numbers, zeros, infinities
    and the default NaN). *)
Definition binary64_bits (x : spec_float) : Z :=
  let sign (s : bool) := if s then Z.shiftl 1 63 else 0 in
  match x with
  | S754_zero s => sign s
  | S754_infinity s => Z.lor (sign s) (Z.shiftl 2047 52)
  | S754_nan => Z.lor (Z.shiftl 2047 52) (Z.shiftl 1 51)
  | S754_finite s m e =>
      if Z.shiftl 1 52 <=? Zpos m
      then Z.lor (sign s) (Z.lor (Z.shiftl (e + 1075) 52) (Zpos m - Z.shiftl 1 52))
      else Z.lor (sign s) (Zpos m)
  end.

(** The [float64] nearest to an integer (exact for the small ones). *)
Definition float64_of_Z (z : Z) : float64 :=
  Float64frombits (binary64_bits (binary_normalize 53 1024 z 0 false)).

(** What can make a Go function panic here. *)
Inductive panic : Type :=
| PanicDivideByZero      (* integer divide by zero *)
| PanicMakesliceLen      (* makeslice: len out of range *)
| PanicSliceBounds.      (* slice bounds out of range *)

End Go.
Import Go.

(** ** Errors *)

(** The values of Go's [error] that occur: the error types of the package and
    the errors of the underlying stream.  [ErrUnexpectedType], which carries
    two values of any type and is raised through no function of the package,
    is left out. *)
Inductive error : Type :=
| io_EOF
| io_ErrUnexpectedEOF
| io_ErrShortWrite
| io_error (code : nat)                (* any other failure of the stream *)
| ErrUnknownByteOrder (b : byte)
| ErrUnsupportedByteOrder
| ErrUnknownType (t : Z)
| ErrUnsupportedType (t : Z)
| ErrGeometryTooLarge (Level : Z) (N : Z) (Limit : Z).

(** ** Computations over a stream *)

Inductive result (A : Type) : Type :=
| Done (a : A)
| Panicked (p : panic).
Arguments Done {A} a.
Arguments Panicked {A} p.

Definition M (S A : Type) : Type := S -> result (A * S).

Definition ret {S A : Type} (a : A) : M S A := fun s => Done (a, s).

Definition bind {S A B : Type} (m : M S A) (k : A -> M S B) : M S B :=
  fun s => match m s with
           | Done (a, s') => k a s'
           | Panicked p => Panicked p
           end.

Definition raise {S A : Type} (p : panic) : M S A := fun _ => Panicked p.

Declare Scope go_scope.
Delimit Scope go_scope with go.
Notation "x <- m ;; k" := (bind m (fun x => k))
  (at level 61, m at next level, right associativity) : go_scope.
Notation "' pat <- m ;; k" := (bind m (fun x => match x with pat => k end))
  (at level 61, pat pattern, m at next level, right associativity) : go_scope.
Local Open Scope go_scope.

(** ** Byte orders ([encoding/binary]) *)

Inductive ByteOrder : Type := BigEndian | LittleEndian.

(** Byte order IDs. *)
Definition XDRID : byte := Byte.x00.
Definition NDRID : byte := Byte.x01.

(** Byte orders. *)
Definition XDR : ByteOrder := BigEndian.
Definition NDR : ByteOrder := LittleEndian.

(** [order.PutUint32], [order.PutUint64]: the bytes of a value, least
    significant first for [LittleEndian], most significant first for
    [BigEndian]. *)
Definition PutUint (size : nat) (order : ByteOrder) (v : Z) : list byte :=
  match order with
  | LittleEndian => le_split size v
  | BigEndian => rev (le_split size v)
  end.

(** [order.Uint32], [order.Uint64]. *)
Definition Uint (order : ByteOrder) (b : list byte) : Z :=
  match order with
  | LittleEndian => le_combine b
  | BigEndian => le_combine (rev b)
  end.

Definition PutUint32 := PutUint 4.
Definition PutUint64 := PutUint 8.
Definition Uint32 := Uint.
Definition Uint64 := Uint.

(** ** [io.Reader] *)

(** A stream to read from: the bytes still to come, what the stream reports
    once they run out ([io_EOF] for a stream that just ends), and the sizes of
    the reads requested so far, latest first. *)
Record Reader : Type := mkReader {
  data : list byte;
  fault : error;
  requests : list Z
}.

(** A stream that holds [bs] and ends after them. *)
Definition NewReader (bs : list byte) : Reader := mkReader bs io_EOF [].

(** [io.ReadFull(r, buf)] with [len(buf) = size]: the bytes read and the
    error.  It does not call [r.Read] for an empty buffer; it turns an end of
    stream after some bytes into [io.ErrUnexpectedEOF]. *)
Definition io_ReadFull (size : Z) : M Reader (list byte * option error) :=
  fun r =>
    if size <=? 0 then Done (([], None), r)
    else if size <=? len (data r) then
      Done ((firstn (Z.to_nat size) (data r), None),
            mkReader (skipn (Z.to_nat size) (data r)) (fault r) (size :: requests r))
    else
      let err := match fault r with
                 | io_EOF => match data r with [] => io_EOF | _ => io_ErrUnexpectedEOF end
                 | e => e
                 end in
      Done ((data r, Some err), mkReader [] (fault r) (size :: requests r)).

(** [binary.Read(r, order, &n)] for [n uint32]: the new value of [n] (zero, its
    initial value, when the read fails) and the error. *)
Definition binary_Read_uint32 (order : ByteOrder) : M Reader (Z * option error) :=
  '(bs, err) <- io_ReadFull 4 ;;
  match err with
  | Some e => ret (0, Some e)
  | None => ret (Uint32 order bs, None)
  end.

(** The scalars held by [8 * k] bytes. *)
Fixpoint decode_float64s (order : ByteOrder) (k : nat) (bs : list byte) : list float64 :=
  match k with
  | O => []
  | S k' => Float64frombits (Uint64 order (firstn 8 bs))
              :: decode_float64s order k' (skipn 8 bs)
  end.

(** [binary.Read(r, order, &s)] for [s []float64]: the new content of [s]
    (unchanged when the read fails) and the error. *)
Definition binary_Read_float64s (order : ByteOrder) (s : list float64)
  : M Reader (list float64 * option error) :=
  '(bs, err) <- io_ReadFull (8 * len s) ;;
  match err with
  | Some e => ret (s, Some e)
  | None => ret (decode_float64s order (length s) bs, None)
  end.

(** [make([]float64, n)]: zeros, or a panic for a negative length.  Go's
    [make] panics as well for a length whose bytes exceed what the platform
    can allocate (2^48 bytes with 64-bit addresses, that is 2^45 scalars), and
    no slice is that long.  Here the length is not bounded above: where a
    theorem has [make] return, the length is at most 2^45, or it is that of a
    slice at hand, or the call is taken to have returned. *)
Definition make_float64s {S : Type} (n : Z) : M S (list float64) :=
  if n <? 0 then raise PanicMakesliceLen
  else ret (repeat (Float64frombits 0) (Z.to_nat n)).

(** ** [io.Writer] *)

(** A stream to write to: the bytes written so far and how many more it takes
    ([None]: it never fails). *)
Record Writer : Type := mkWriter {
  out : list byte;
  room : option Z
}.

(** An empty buffer that takes everything. *)
Definition NewBuffer : Writer := mkWriter [] None.

(** [w.Write(p)]: a writer that runs out of room takes what fits and reports
    [io.ErrShortWrite]. *)
Definition io_Write (p : list byte) : M Writer (option error) :=
  fun w =>
    match room w with
    | None => Done (None, mkWriter (out w ++ p) None)
    | Some k =>
        if len p <=? k then Done (None, mkWriter (out w ++ p) (Some (k - len p)))
        else Done (Some io_ErrShortWrite,
                   mkWriter (out w ++ firstn (Z.to_nat k) p) (Some 0))
    end.

(** [binary.Write(w, order, v)] for [v uint32]. *)
Definition binary_Write_uint32 (order : ByteOrder) (v : Z) : M Writer (option error) :=
  io_Write (PutUint32 order v).

(** The bytes of a sequence of scalars. *)
Definition encode_float64s (order : ByteOrder) (s : list float64) : list byte :=
  flat_map (fun f => PutUint64 order (Float64bits f)) s.

(** [binary.Write(w, order, s)] for [s []float64]. *)
Definition binary_Write_float64s (order : ByteOrder) (s : list float64)
  : M Writer (option error) :=
  io_Write (encode_float64s order s).

(** ** The package *)

(** [MaxGeometryElements]: the maximum number of elements that will be
    decoded at the different levels, as the package initialises it. *)
Definition MaxGeometryElements : list Z :=
  [ 0;
    Z.shiftl 1 20;   (* coordinates of a LineString, LinearRing or MultiPoint *)
    Z.shiftl 1 15;   (* LineStrings or LinearRings of a MultiLineString or Polygon *)
    Z.shiftl 1 10 ]. (* Polygons of a MultiPolygon *)

(** The variable is a [[4]uint32]. *)
Definition BoundsPolicy_ok (limits : list Z) : Prop :=
  length limits = 4%nat /\ Forall (fun l => 0 <= l < 2 ^ 32) limits.

(** [limits[level]]. *)
Definition limit (limits : list Z) (level : nat) : Z := nth level limits 0.

(** Geometry type IDs. *)
Definition PointID : Z := 1.
Definition LineStringID : Z := 2.
Definition PolygonID : Z := 3.
Definition MultiPointID : Z := 4.
Definition MultiLineStringID : Z := 5.
Definition MultiPolygonID : Z := 6.
Definition GeometryCollectionID : Z := 7.
Definition PolyhedralSurfaceID : Z := 15.
Definition TINID : Z := 16.
Definition TriangleID : Z := 17.

(** Modelled from the spec: the IDs that the Byte-Order Registry reserves for
    byte orders that are not implemented, which the package does not declare.
    Only the two IDs are recognised and none is reserved. *)
Definition reserved_order_id (orderID : byte) : bool := false.

(** Modelled from the spec: the operation [resolve(orderID)] of the
    Byte-Order Registry, which the callers of this package implement (the
    package holds the IDs, the byte orders and the two error types only).
    ID 0 is big-endian and ID 1 little-endian; a reserved ID fails with
    [ErrUnsupportedByteOrder], any other with [ErrUnknownByteOrder]. *)
Definition resolve (orderID : byte) : ByteOrder + error :=
  if Byte.eqb orderID XDRID then inl XDR
  else if Byte.eqb orderID NDRID then inl NDR
  else if reserved_order_id orderID then inr ErrUnsupportedByteOrder
  else inr (ErrUnknownByteOrder orderID).

Section Codec.

(** The content of the package variable [MaxGeometryElements] during the
    call; the codec reads it and never writes to it. *)
Variable limits : list Z.

(** [ReadFlatCoords0] reads flat coordinates 0. *)
Definition ReadFlatCoords0 (byteOrder : ByteOrder) (stride : Z)
  : M Reader (list float64 * option error) :=
  coord <- make_float64s stride ;;
  '(coord, err) <- binary_Read_float64s byteOrder coord ;;
  match err with
  | Some e => ret ([], Some e)
  | None => ret (coord, None)
  end.

(** [ReadFlatCoords1] reads flat coordinates 1. *)
Definition ReadFlatCoords1 (byteOrder : ByteOrder) (stride : Z)
  : M Reader (list float64 * option error) :=
  '(n, err) <- binary_Read_uint32 byteOrder ;;
  match err with
  | Some e => ret ([], Some e)
  | None =>
      if n >? limit limits 1
      then ret ([], Some (ErrGeometryTooLarge 1 n (limit limits 1)))
      else
        flatCoords <- make_float64s (int_mul n stride) ;;
        '(flatCoords, err) <- binary_Read_float64s byteOrder flatCoords ;;
        match err with
        | Some e => ret ([], Some e)
        | None => ret (flatCoords, None)
        end
  end.

(** The loop of [ReadFlatCoords2], with [iters] iterations still to run. *)
Fixpoint ReadFlatCoords2_loop (byteOrder : ByteOrder) (stride : Z) (iters : nat)
    (flatCoordss : list float64) (ends : list Z)
  : M Reader (list float64 * list Z * option error) :=
  match iters with
  | O => ret (flatCoordss, ends, None)
  | S iters' =>
      '(flatCoords, err) <- ReadFlatCoords1 byteOrder stride ;;
      match err with
      | Some e => ret ([], [], Some e)
      | None =>
          let flatCoordss := flatCoordss ++ flatCoords in
          let ends := ends ++ [len flatCoordss] in
          ReadFlatCoords2_loop byteOrder stride iters' flatCoordss ends
      end
  end.

(** [ReadFlatCoords2] reads flat coordinates 2. *)
Definition ReadFlatCoords2 (byteOrder : ByteOrder) (stride : Z)
  : M Reader (list float64 * list Z * option error) :=
  '(n, err) <- binary_Read_uint32 byteOrder ;;
  match err with
  | Some e => ret ([], [], Some e)
  | None =>
      if n >? limit limits 2
      then ret ([], [], Some (ErrGeometryTooLarge 2 n (limit limits 2)))
      else ReadFlatCoords2_loop byteOrder stride (Z.to_nat n) [] []
  end.

End Codec.

(** [WriteFlatCoords0] writes flat coordinates 0. *)
Definition WriteFlatCoords0 (byteOrder : ByteOrder) (coord : list float64)
  : M Writer (option error) :=
  binary_Write_float64s byteOrder coord.

(** [a / b] on [int]: truncated division, a panic for a zero divisor. *)
Definition int_div {S : Type} (a b : Z) : M S Z :=
  if b =? 0 then raise PanicDivideByZero else ret (int_wrap (Z.quot a b)).

(** [WriteFlatCoords1] writes flat coordinates 1. *)
Definition WriteFlatCoords1 (byteOrder : ByteOrder) (coords : list float64) (stride : Z)
  : M Writer (option error) :=
  n <- int_div (len coords) stride ;;
  err <- binary_Write_uint32 byteOrder (uint32 n) ;;
  match err with
  | Some e => ret (Some e)
  | None => binary_Write_float64s byteOrder coords
  end.

(** [s[low:high]], for a slice [s] without spare capacity. *)
Definition slice {S A : Type} (s : list A) (low high : Z) : M S (list A) :=
  if (0 <=? low) && (low <=? high) && (high <=? len s)
  then ret (firstn (Z.to_nat (high - low)) (skipn (Z.to_nat low) s))
  else raise PanicSliceBounds.

(** The loop of [WriteFlatCoords2] over the [ends] still to walk. *)
Fixpoint WriteFlatCoords2_loop (byteOrder : ByteOrder) (flatCoords : list float64)
    (stride : Z) (offset : Z) (ends : list Z) : M Writer (option error) :=
  match ends with
  | [] => ret None
  | end_ :: ends' =>
      coords <- slice flatCoords offset end_ ;;
      err <- WriteFlatCoords1 byteOrder coords stride ;;
      match err with
      | Some e => ret (Some e)
      | None => WriteFlatCoords2_loop byteOrder flatCoords stride end_ ends'
      end
  end.

(** [WriteFlatCoords2] writes flat coordinates 2. *)
Definition WriteFlatCoords2 (byteOrder : ByteOrder) (flatCoords : list float64)
    (ends : list Z) (stride : Z) : M Writer (option error) :=
  err <- binary_Write_uint32 byteOrder (uint32 (len ends)) ;;
  match err with
  | Some e => ret (Some e)
  | None => WriteFlatCoords2_loop byteOrder flatCoords stride 0 ends
  end.

(** ** Concrete values *)

Definition f64 (z : Z) : float64 := float64_of_Z z.

Definition bytes_of (zs : list Z) : list byte := map byte.of_Z zs.

(** ** Notions of the specification *)

(** [m] run from [s] returns [a] (in some final state). *)
Definition returns {S A : Type} (m : M S A) (s : S) (a : A) : Prop :=
  exists s', m s = Done (a, s').

(** The bytes [m] leaves in an empty buffer when it returns without error. *)
Definition written (m : M Writer (option error)) : option (list byte) :=
  match m NewBuffer with
  | Done (None, w) => Some (out w)
  | _ => None
  end.

(** The requests of a stream after one more [io.ReadFull] of [size] bytes. *)
Definition note (size : Z) (reqs : list Z) : list Z :=
  if size <=? 0 then reqs else size :: reqs.

(** A Level-1 block: the count, then the scalars. *)
Definition Level1_block (order : ByteOrder) (count : Z) (coords : list float64) : list byte :=
  PutUint32 order count ++ encode_float64s order coords.

(** A well-formed Level-1 block holds [count * stride] scalars. *)
Definition Level1_wellformed (order : ByteOrder) (stride : Z) (bs : list byte) : Prop :=
  exists count coords,
    0 <= count < 2 ^ 32 /\ len coords = count * stride /\ bs = Level1_block order count coords.

(** Write then read, Level 1: the bytes [WriteFlatCoords1] produces are read
    back by [ReadFlatCoords1] as the same scalars. *)
Definition Level1_roundtrip (limits : list Z) (order : ByteOrder) (stride : Z)
    (coords : list float64) : Prop :=
  exists bs,
    written (WriteFlatCoords1 order coords stride) = Some bs /\
    returns (ReadFlatCoords1 limits order stride) (NewReader bs) (coords, None).

(** Write then read, Level 2. *)
Definition Level2_roundtrip (limits : list Z) (order : ByteOrder) (stride : Z)
    (flatCoords : list float64) (ends : list Z) : Prop :=
  exists bs,
    written (WriteFlatCoords2 order flatCoords ends stride) = Some bs /\
    returns (ReadFlatCoords2 limits order stride) (NewReader bs) (flatCoords, ends, None).

(** [ends] cuts a buffer of [total] scalars, from [offset] on, into
    consecutive sub-arrays. *)
Fixpoint partition_of (offset : Z) (ends : list Z) (total : Z) : Prop :=
  match ends with
  | [] => offset = total
  | end_ :: ends' => offset <= end_ /\ partition_of end_ ends' total
  end.

(** Every sub-array holds whole tuples, [limit1] of them at most. *)
Fixpoint whole_tuples (stride limit1 : Z) (offset : Z) (ends : list Z) : Prop :=
  match ends with
  | [] => True
  | end_ :: ends' =>
      (end_ - offset) mod stride = 0 /\ (end_ - offset) / stride <= limit1 /\
      whole_tuples stride limit1 end_ ends'
  end.

(** The end offsets of consecutive sub-arrays laid out from [offset] on. *)
Fixpoint ends_from (offset : Z) (blocks : list (list float64)) : list Z :=
  match blocks with
  | [] => []
  | b :: blocks' => (offset + len b) :: ends_from (offset + len b) blocks'
  end.

(** The sub-arrays that [ends] cuts out of [flatCoords], from [offset] on. *)
Fixpoint segments (flatCoords : list float64) (offset : Z) (ends : list Z)
  : list (list float64) :=
  match ends with
  | [] => []
  | end_ :: ends' =>
      firstn (Z.to_nat (end_ - offset)) (skipn (Z.to_nat offset) flatCoords)
        :: segments flatCoords end_ ends'
  end.

(** The Level-1 blocks of a sequence of sub-arrays, as [WriteFlatCoords1]
    writes them one after the other. *)
Definition Level1_blocks (order : ByteOrder) (stride : Z) (blocks : list (list float64))
  : list byte :=
  flat_map (fun b => Level1_block order (uint32 (Z.quot (len b) stride)) b) blocks.

(** A sub-array that [ReadFlatCoords1] reads back: whole tuples, within the
    limit. *)
Definition readable (stride limit1 : Z) (b : list float64) : Prop :=
  len b mod stride = 0 /\ len b / stride <= limit1 /\ len b < 2 ^ 63.

(** The slices [flatCoords[offset:end]] that the loop of [WriteFlatCoords2]
    takes. *)
Fixpoint slices_taken (offset : Z) (ends : list Z) : list (Z * Z) :=
  match ends with
  | [] => []
  | end_ :: ends' => (offset, end_) :: slices_taken end_ ends'
  end.

Definition in_bounds {A : Type} (s : list A) (lh : Z * Z) : Prop :=
  0 <= fst lh <= snd lh /\ snd lh <= len s.

Section Failures.

Variable limits : list Z.
Variable order : ByteOrder.
Variable stride : Z.

(** Successive Level-1 reads that succeed: the stream before, what they
    return, the stream after. *)
Inductive Level1_reads : Reader -> list (list float64) -> Reader -> Prop :=
| Level1_reads_nil r : Level1_reads r [] r
| Level1_reads_cons r flatCoords r1 blocks r2 :
    ReadFlatCoords1 limits order stride r = Done ((flatCoords, None), r1) ->
    Level1_reads r1 blocks r2 ->
    Level1_reads r (flatCoords :: blocks) r2.

(** The ways a Level-2 read of the stream [r] fails, with the error of the
    step that fails: the read of the count, the check of the count, or one of
    the Level-1 reads. *)
Inductive Level2_failure (r : Reader) : error -> Prop :=
| Level2_count_fails n e r1 :
    binary_Read_uint32 order r = Done ((n, Some e), r1) ->
    Level2_failure r e
| Level2_too_large n r1 :
    binary_Read_uint32 order r = Done ((n, None), r1) ->
    n > limit limits 2 ->
    Level2_failure r (ErrGeometryTooLarge 2 n (limit limits 2))
| Level2_inner_fails n r1 blocks ri x e r' :
    binary_Read_uint32 order r = Done ((n, None), r1) ->
    n <= limit limits 2 ->
    Level1_reads r1 blocks ri ->
    len blocks < n ->
    ReadFlatCoords1 limits order stride ri = Done ((x, Some e), r') ->
    Level2_failure r e.

End Failures.

(** ** Further notions *)

(** A Level-2 block: the count of sub-arrays, then their Level-1 blocks. *)
Definition Level2_block (order : ByteOrder) (stride : Z) (blocks : list (list float64))
  : list byte :=
  PutUint32 order (uint32 (len blocks)) ++ Level1_blocks order stride blocks.

(** [ReadFlatCoords0] called [k] times in a row, the tuples put together; it
    stops at the first call that fails. *)
Fixpoint ReadFlatCoords0_times (order : ByteOrder) (stride : Z) (k : nat)
  : M Reader (list float64 * option error) :=
  match k with
  | O => ret ([], None)
  | S k' =>
      '(coord, err) <- ReadFlatCoords0 order stride ;;
      match err with
      | Some e => ret ([], Some e)
      | None =>
          '(coords, err) <- ReadFlatCoords0_times order stride k' ;;
          match err with
          | Some e => ret ([], Some e)
          | None => ret (coord ++ coords, None)
          end
      end
  end.

(** [fmt.Sprintf] with the verb [%d]: an integer in base 10, with a minus
    sign when it is negative. *)
Definition fmt_d (z : Z) : String.string :=
  DecimalString.NilZero.string_of_int (Z.to_int z).

(** [fmt.Sprintf] with the verb [%b], for an unsigned integer: base 2. *)
Definition fmt_b (z : Z) : String.string :=
  match z with
  | Zpos p => BinaryString.Raw.of_pos p String.EmptyString
  | _ => "0"%string
  end.

(** The method [Error] of [ErrUnknownByteOrder]. *)
Definition ErrUnknownByteOrder_Error (e : byte) : String.string :=
  String.append "wkb: unknown byte order: " (fmt_b (byte.unsigned e)).

(** The method [Error] of [ErrUnsupportedByteOrder]. *)
Definition ErrUnsupportedByteOrder_Error : String.string :=
  "wkb: unsupported byte order"%string.

(** The method [Error] of [ErrUnknownType]. *)
Definition ErrUnknownType_Error (e : Z) : String.string :=
  String.append "wkb: unknown type: " (fmt_d e).

(** The method [Error] of [ErrUnsupportedType]. *)
Definition ErrUnsupportedType_Error (e : Z) : String.string :=
  String.append "wkb: unsupported type: " (fmt_d e).

(** The method [Error] of [ErrGeometryTooLarge]. *)
Definition ErrGeometryTooLarge_Error (Level N Limit : Z) : String.string :=
  String.append "wkb: number of elements at level "
    (String.append (fmt_d Level)
       (String.append " ("
          (String.append (fmt_d N)
             (String.append ") exceeds " (fmt_d Limit))))).

(** [e.Error()] for the errors of the package ([None] for those of the
    stream, whose messages the package does not make). *)
Definition Error (e : error) : option String.string :=
  match e with
  | ErrUnknownByteOrder b => Some (ErrUnknownByteOrder_Error b)
  | ErrUnsupportedByteOrder => Some ErrUnsupportedByteOrder_Error
  | ErrUnknownType t => Some (ErrUnknownType_Error t)
  | ErrUnsupportedType t => Some (ErrUnsupportedType_Error t)
  | ErrGeometryTooLarge l n m => Some (ErrGeometryTooLarge_Error l n m)
  | io_EOF | io_ErrUnexpectedEOF | io_ErrShortWrite | io_error _ => None
  end.

(** The character [c] does not occur in [s]. *)
Fixpoint no_char (c : Ascii.ascii) (s : String.string) : Prop :=
  match s with
  | String.EmptyString => True
  | String.String a s' => a <> c /\ no_char c s'
  end.

(** [m] writes the bytes [bs] to a stream with room for [k] more bytes: all
    of them when they fit, and otherwise those that fit, returning
    [io.ErrShortWrite]. *)
Definition streams (m : M Writer (option error)) (bs : list byte) : Prop :=
  forall o k, 0 <= k ->
    m (mkWriter o (Some k))
    = if len bs <=? k
      then Done (None, mkWriter (o ++ bs) (Some (k - len bs)))
      else Done (Some io_ErrShortWrite, mkWriter (o ++ firstn (Z.to_nat k) bs) (Some 0)).

(** The bytes asked for by a sequence of requests. *)
Definition total (sizes : list Z) : Z := fold_right Z.add 0 sizes.

(** What [io.ReadFull] reports when a stream runs out before the buffer is
    full. *)
Definition short_read_error (r : Reader) : error :=
  match fault r with
  | io_EOF => match data r with [] => io_EOF | _ => io_ErrUnexpectedEOF end
  | e => e
  end.

(** * Proofs *)

(** ** Lists and lengths *)

Lemma len_nonneg {A : Type} (s : list A) : 0 <= len s.
Proof. unfold len. lia. Qed.

Lemma len_app {A : Type} (s t : list A) : len (s ++ t) = len s + len t.
Proof. unfold len. rewrite length_app. lia. Qed.

Lemma len_nil_inv {A : Type} (s : list A) : len s = 0 -> s = [].
Proof. destruct s; [reflexivity | unfold len; simpl; lia]. Qed.

Lemma firstn_exact {A : Type} (s t : list A) (n : nat) :
  n = length s -> firstn n (s ++ t) = s.
Proof.
  intros ->. rewrite firstn_app, Nat.sub_diag, firstn_all. simpl. apply app_nil_r.
Qed.

Lemma skipn_exact {A : Type} (s t : list A) (n : nat) :
  n = length s -> skipn n (s ++ t) = t.
Proof.
  intros ->. rewrite skipn_app, Nat.sub_diag, skipn_all. reflexivity.
Qed.

(** ** Running a computation *)

Lemma bind_Done {S A B : Type} (m : M S A) (k : A -> M S B) s a s' :
  m s = Done (a, s') -> bind m k s = k a s'.
Proof. unfold bind. intros ->. reflexivity. Qed.

Lemma bind_Panicked {S A B : Type} (m : M S A) (k : A -> M S B) s p :
  m s = Panicked p -> bind m k s = Panicked p.
Proof. unfold bind. intros ->. reflexivity. Qed.

(** Runs the first computation of a sequence, whose result [tac] proves. *)
Ltac run_with tac := erewrite bind_Done by tac; cbv beta iota.

(** ** Integers *)

Lemma uint32_range z : 0 <= uint32 z < 2 ^ 32.
Proof. unfold uint32. apply Z.mod_pos_bound. lia. Qed.

Lemma uint32_small z : 0 <= z < 2 ^ 32 -> uint32 z = z.
Proof. unfold uint32. apply Z.mod_small. Qed.

Lemma uint32_le z : 0 <= z -> uint32 z <= z.
Proof. unfold uint32. intros. apply Z.mod_le; lia. Qed.

Lemma int_wrap_small z : - 2 ^ 63 <= z < 2 ^ 63 -> int_wrap z = z.
Proof. unfold int_wrap. intros. rewrite Z.mod_small; lia. Qed.

(** Converting an [int] to [uint32] sees the low 32 bits only. *)
Lemma uint32_int_wrap z : uint32 (int_wrap z) = uint32 z.
Proof.
  unfold uint32, int_wrap.
  change (2 ^ 64) with 18446744073709551616.
  change (2 ^ 63) with 9223372036854775808.
  change (2 ^ 32) with 4294967296.
  Z.div_mod_to_equations. lia.
Qed.

(** ** Byte orders *)

Lemma length_PutUint size order v : length (PutUint size order v) = size.
Proof.
  destruct order; simpl; rewrite ?length_rev; apply length_le_split.
Qed.

Lemma Uint_PutUint size order v :
  0 <= v < 2 ^ (Z.of_nat size * 8) -> Uint order (PutUint size order v) = v.
Proof.
  intros Hv. destruct order; simpl; rewrite ?rev_involutive;
    rewrite le_combine_split; apply Z.mod_small; exact Hv.
Qed.

Lemma Uint32_PutUint32 order v : 0 <= v < 2 ^ 32 -> Uint32 order (PutUint32 order v) = v.
Proof. intros. apply Uint_PutUint. assumption. Qed.

Lemma Uint64_PutUint64 order v : 0 <= v < 2 ^ 64 -> Uint64 order (PutUint64 order v) = v.
Proof. intros. apply Uint_PutUint. assumption. Qed.

(** The bytes are those the Go library writes one by one:
    [b[0] = byte(v >> 24)], ..., [b[3] = byte(v)] for big-endian. *)
Lemma PutUint32_BigEndian_bytes v :
  PutUint32 BigEndian v =
  [byte.of_Z (Z.shiftr v 24); byte.of_Z (Z.shiftr v 16); byte.of_Z (Z.shiftr v 8); byte.of_Z v].
Proof.
  unfold PutUint32, PutUint. cbv [le_split rev app].
  rewrite !Z.shiftr_shiftr by lia. reflexivity.
Qed.

Lemma PutUint32_LittleEndian_bytes v :
  PutUint32 LittleEndian v =
  [byte.of_Z v; byte.of_Z (Z.shiftr v 8); byte.of_Z (Z.shiftr v 16); byte.of_Z (Z.shiftr v 24)].
Proof.
  unfold PutUint32, PutUint. cbv [le_split].
  rewrite !Z.shiftr_shiftr by lia. reflexivity.
Qed.

(** Reading is the Go library's expression
    [uint32(b[3]) | uint32(b[2])<<8 | uint32(b[1])<<16 | uint32(b[0])<<24]
    for big-endian, and the mirror image for little-endian. *)
Lemma Uint32_BigEndian_bytes b0 b1 b2 b3 :
  Uint32 BigEndian [b0; b1; b2; b3]
  = Z.lor (Z.lor (Z.lor (byte.unsigned b3) (Z.shiftl (byte.unsigned b2) 8))
                 (Z.shiftl (byte.unsigned b1) 16))
          (Z.shiftl (byte.unsigned b0) 24).
Proof.
  unfold Uint32, Uint. cbv [rev app le_combine].
  rewrite Z.shiftl_0_l, Z.lor_0_r, !Z.shiftl_lor, !Z.shiftl_shiftl by lia.
  rewrite !Z.lor_assoc. reflexivity.
Qed.

Lemma Uint32_LittleEndian_bytes b0 b1 b2 b3 :
  Uint32 LittleEndian [b0; b1; b2; b3]
  = Z.lor (Z.lor (Z.lor (byte.unsigned b0) (Z.shiftl (byte.unsigned b1) 8))
                 (Z.shiftl (byte.unsigned b2) 16))
          (Z.shiftl (byte.unsigned b3) 24).
Proof.
  unfold Uint32, Uint. cbv [le_combine].
  rewrite Z.shiftl_0_l, Z.lor_0_r, !Z.shiftl_lor, !Z.shiftl_shiftl by lia.
  rewrite !Z.lor_assoc. reflexivity.
Qed.

Lemma PutUint64_BigEndian_bytes v :
  PutUint64 BigEndian v =
  [byte.of_Z (Z.shiftr v 56); byte.of_Z (Z.shiftr v 48); byte.of_Z (Z.shiftr v 40);
   byte.of_Z (Z.shiftr v 32); byte.of_Z (Z.shiftr v 24); byte.of_Z (Z.shiftr v 16);
   byte.of_Z (Z.shiftr v 8); byte.of_Z v].
Proof.
  unfold PutUint64, PutUint. cbv [le_split rev app].
  rewrite !Z.shiftr_shiftr by lia. reflexivity.
Qed.

Lemma Uint64_BigEndian_bytes b0 b1 b2 b3 b4 b5 b6 b7 :
  Uint64 BigEndian [b0; b1; b2; b3; b4; b5; b6; b7]
  = Z.lor (Z.lor (Z.lor (Z.lor (Z.lor (Z.lor (Z.lor
      (byte.unsigned b7) (Z.shiftl (byte.unsigned b6) 8))
      (Z.shiftl (byte.unsigned b5) 16)) (Z.shiftl (byte.unsigned b4) 24))
      (Z.shiftl (byte.unsigned b3) 32)) (Z.shiftl (byte.unsigned b2) 40))
      (Z.shiftl (byte.unsigned b1) 48)) (Z.shiftl (byte.unsigned b0) 56).
Proof.
  unfold Uint64, Uint. cbv [rev app le_combine].
  rewrite Z.shiftl_0_l, Z.lor_0_r, !Z.shiftl_lor, !Z.shiftl_shiftl by lia.
  rewrite !Z.lor_assoc. reflexivity.
Qed.

Lemma Float64frombits_bits (f : float64) : Float64frombits (Float64bits f) = f.
Proof. apply word.of_Z_unsigned. Qed.

Lemma Float64bits_range (f : float64) : 0 <= Float64bits f < 2 ^ 64.
Proof. apply word.unsigned_range. Qed.

Lemma length_encode_float64s order s :
  length (encode_float64s order s) = (8 * length s)%nat.
Proof.
  induction s as [|f s IH]; [reflexivity|].
  unfold encode_float64s in *. cbn [flat_map].
  rewrite length_app, IH. unfold PutUint64. rewrite length_PutUint. cbn [length]. lia.
Qed.

Lemma len_encode_float64s order s : len (encode_float64s order s) = 8 * len s.
Proof. unfold len. rewrite length_encode_float64s. lia. Qed.

Lemma encode_float64s_app order s t :
  encode_float64s order (s ++ t) = encode_float64s order s ++ encode_float64s order t.
Proof. apply flat_map_app. Qed.

(** Decoding the bytes of a sequence of scalars gives the scalars back, bit
    for bit. *)
Lemma decode_encode_float64s order s :
  decode_float64s order (length s) (encode_float64s order s) = s.
Proof.
  induction s as [|f s IH]; [reflexivity|].
  unfold encode_float64s in *. cbn [flat_map length decode_float64s].
  rewrite firstn_exact, skipn_exact by (unfold PutUint64; now rewrite length_PutUint).
  rewrite IH, Uint64_PutUint64 by apply Float64bits_range.
  now rewrite Float64frombits_bits.
Qed.

(** ** Reading what a stream holds *)

Lemma io_ReadFull_ok bs rest flt reqs :
  io_ReadFull (len bs) (mkReader (bs ++ rest) flt reqs)
  = Done ((bs, None), mkReader rest flt (note (len bs) reqs)).
Proof.
  unfold io_ReadFull, note. destruct (len bs <=? 0) eqn:E.
  - apply Z.leb_le in E. pose proof (len_nonneg bs).
    rewrite (len_nil_inv bs) by lia. reflexivity.
  - cbn [data fault requests]. rewrite len_app.
    pose proof (len_nonneg rest).
    destruct (len bs <=? len bs + len rest) eqn:E'; [|apply Z.leb_gt in E'; lia].
    unfold len at 1 2. rewrite Nat2Z.id, firstn_exact, skipn_exact by reflexivity.
    reflexivity.
Qed.

Lemma binary_Read_uint32_ok order n rest flt reqs :
  0 <= n < 2 ^ 32 ->
  binary_Read_uint32 order (mkReader (PutUint32 order n ++ rest) flt reqs)
  = Done ((n, None), mkReader rest flt (4 :: reqs)).
Proof.
  intros Hn. unfold binary_Read_uint32.
  assert (L : len (PutUint32 order n) = 4)
    by (unfold len, PutUint32; now rewrite length_PutUint).
  run_with ltac:(rewrite <- L; apply io_ReadFull_ok).
  rewrite L. unfold ret, note. cbn [Z.leb Z.compare]. now rewrite Uint32_PutUint32.
Qed.

Lemma binary_Read_float64s_ok order buf s rest flt reqs :
  length buf = length s ->
  binary_Read_float64s order buf (mkReader (encode_float64s order s ++ rest) flt reqs)
  = Done ((s, None), mkReader rest flt (note (8 * len s) reqs)).
Proof.
  intros L. unfold binary_Read_float64s.
  assert (E : 8 * len buf = len (encode_float64s order s))
    by (rewrite len_encode_float64s; unfold len; now rewrite L).
  run_with ltac:(rewrite E; apply io_ReadFull_ok).
  unfold ret. now rewrite L, decode_encode_float64s, len_encode_float64s.
Qed.

Lemma make_float64s_ok {S : Type} n (s : S) :
  0 <= n -> make_float64s n s = Done (repeat (Float64frombits 0) (Z.to_nat n), s).
Proof.
  intros Hn. unfold make_float64s.
  destruct (n <? 0) eqn:E; [apply Z.ltb_lt in E; lia | reflexivity].
Qed.

(** Reading a Level-1 block whose count is within the limit and agrees with
    its payload gives the scalars back. *)
Lemma ReadFlatCoords1_ok limits order stride count coords rest flt reqs :
  0 <= count < 2 ^ 32 ->
  count <= limit limits 1 ->
  count * stride = len coords ->
  len coords < 2 ^ 63 ->
  ReadFlatCoords1 limits order stride
    (mkReader (Level1_block order count coords ++ rest) flt reqs)
  = Done ((coords, None), mkReader rest flt (note (8 * len coords) (4 :: reqs))).
Proof.
  intros Hc Hl Hm Hb. unfold ReadFlatCoords1, Level1_block.
  rewrite <- app_assoc.
  run_with ltac:(now apply binary_Read_uint32_ok).
  destruct (count >? limit limits 1) eqn:E; [apply Z.gtb_lt in E; lia|].
  pose proof (len_nonneg coords).
  unfold int_mul. rewrite Hm, int_wrap_small by lia.
  run_with ltac:(apply make_float64s_ok; lia).
  run_with ltac:(apply binary_Read_float64s_ok; rewrite repeat_length;
                 unfold len; apply Nat2Z.id).
  reflexivity.
Qed.

(** ** Writing to a buffer *)

Lemma io_Write_buffer p o :
  io_Write p (mkWriter o None) = Done (None, mkWriter (o ++ p) None).
Proof. reflexivity. Qed.

(** On a stream that takes everything, [WriteFlatCoords1] writes the count
    [uint32(len(coords)/stride)] and then every scalar of [coords]. *)
Lemma WriteFlatCoords1_buffer order coords stride o :
  stride <> 0 ->
  WriteFlatCoords1 order coords stride (mkWriter o None)
  = Done (None,
          mkWriter (o ++ Level1_block order (uint32 (Z.quot (len coords) stride)) coords) None).
Proof.
  intros Hs. unfold WriteFlatCoords1, int_div.
  destruct (stride =? 0) eqn:E; [apply Z.eqb_eq in E; contradiction|].
  unfold bind at 1, ret at 1. rewrite uint32_int_wrap.
  unfold binary_Write_uint32, binary_Write_float64s.
  run_with ltac:(apply io_Write_buffer).
  rewrite io_Write_buffer. unfold Level1_block. now rewrite <- app_assoc.
Qed.

(** [WriteFlatCoords1] never panics for a stride other than zero, whatever
    the stream does. *)
Lemma WriteFlatCoords1_total order coords stride w :
  stride <> 0 -> exists err w', WriteFlatCoords1 order coords stride w = Done (err, w').
Proof.
  intros Hs. unfold WriteFlatCoords1, int_div.
  destruct (stride =? 0) eqn:E; [apply Z.eqb_eq in E; contradiction|].
  unfold bind at 1, ret at 1.
  unfold binary_Write_uint32, binary_Write_float64s, bind, io_Write, ret.
  destruct (room w) as [k|]; cbn [room];
    repeat match goal with
           | |- context [if ?c then _ else _] => destruct c; cbn [room]
           end;
    do 2 eexists; reflexivity.
Qed.

(** ** Runs on concrete streams *)

Example bits_of_one : Float64bits (f64 1) = 0x3FF0000000000000.
Proof. vm_compute. reflexivity. Qed.

Example level2_scenario_write :
  WriteFlatCoords2 BigEndian
    [f64 0; f64 0; f64 1; f64 0; f64 1; f64 1; f64 2; f64 2; f64 3; f64 2] [6; 10] 2 NewBuffer
  = Done (None, mkWriter
      (bytes_of [0;0;0;2;
                 0;0;0;3;
                 0;0;0;0;0;0;0;0;  0;0;0;0;0;0;0;0;
                 0x3F;0xF0;0;0;0;0;0;0;  0;0;0;0;0;0;0;0;
                 0x3F;0xF0;0;0;0;0;0;0;  0x3F;0xF0;0;0;0;0;0;0;
                 0;0;0;2;
                 0x40;0;0;0;0;0;0;0;  0x40;0;0;0;0;0;0;0;
                 0x40;0x08;0;0;0;0;0;0;  0x40;0;0;0;0;0;0;0]) None).
Proof. vm_compute. reflexivity. Qed.


(** ** The count of a block *)

(** A count that was read is the value of the next four bytes, which the read
    takes off the stream. *)
Lemma binary_Read_uint32_inv order r n r1 :
  binary_Read_uint32 order r = Done ((n, None), r1) ->
  0 <= n < 2 ^ 32 /\
  n = Uint32 order (firstn 4 (data r)) /\
  r1 = mkReader (skipn 4 (data r)) (fault r) (4 :: requests r).
Proof.
  unfold binary_Read_uint32, bind, io_ReadFull, ret. cbn [Z.leb Z.compare].
  destruct (4 <=? len (data r)) eqn:E; [|discriminate].
  intros H. injection H as <- <-. apply Z.leb_le in E.
  change (Z.to_nat 4) with 4%nat. repeat split.
  - destruct order; apply le_combine_bound.
  - assert (L : length (firstn 4 (data r)) = 4%nat)
      by (rewrite length_firstn; unfold len in E; lia).
    unfold Uint32, Uint.
    destruct order;
      [ pose proof (le_combine_bound (rev (firstn 4 (data r)))) as B;
        rewrite length_rev, L in B
      | pose proof (le_combine_bound (firstn 4 (data r))) as B; rewrite L in B ];
      apply B.
Qed.

(** C1. Whatever the stream, the byte order and the stride: when the count [n]
    that a Level-1 read decodes exceeds [limit[1]], [ReadFlatCoords1] returns
    [ErrGeometryTooLarge{Level: 1, N: n, Limit: limit[1]}] and leaves the
    stream as the read of the count left it, so no scalar is read; when the
    count that a Level-2 read decodes exceeds [limit[2]], [ReadFlatCoords2]
    returns [ErrGeometryTooLarge{Level: 2, N: n, Limit: limit[2]}] in the same
    way.  The read of the count is the only request the stream has seen, and
    its four bytes are all that was taken. *)
Theorem ReadFlatCoords_too_large limits order stride r n r1 :
  binary_Read_uint32 order r = Done ((n, None), r1) ->
  (n > limit limits 1 ->
   ReadFlatCoords1 limits order stride r
   = Done (([], Some (ErrGeometryTooLarge 1 n (limit limits 1))), r1)) /\
  (n > limit limits 2 ->
   ReadFlatCoords2 limits order stride r
   = Done (([], [], Some (ErrGeometryTooLarge 2 n (limit limits 2))), r1)) /\
  requests r1 = 4 :: requests r /\
  data r1 = skipn 4 (data r).
Proof.
  intros Hn. split; [|split].
  - intros Hgt. unfold ReadFlatCoords1. run_with ltac:(exact Hn).
    apply Z.gt_lt, Z.gtb_lt in Hgt. now rewrite Hgt.
  - intros Hgt. unfold ReadFlatCoords2. run_with ltac:(exact Hn).
    apply Z.gt_lt, Z.gtb_lt in Hgt. now rewrite Hgt.
  - apply binary_Read_uint32_inv in Hn as (_ & _ & ->). split; reflexivity.
Qed.

(** The count 1048577 against the limit 1048576 of the package: the error,
    and the sixteen bytes of the first coordinate still in the stream. *)
Lemma ReadFlatCoords_too_large_witness :
  ReadFlatCoords1 MaxGeometryElements BigEndian 2
    (NewReader (bytes_of [0; 16; 0; 1;  0x3F; 0xF0; 0; 0; 0; 0; 0; 0;  0x40; 0; 0; 0; 0; 0; 0; 0]))
  = Done (([], Some (ErrGeometryTooLarge 1 1048577 1048576)),
          mkReader (bytes_of [0x3F; 0xF0; 0; 0; 0; 0; 0; 0;  0x40; 0; 0; 0; 0; 0; 0; 0])
                   io_EOF [4]).
Proof.
  refine (proj1 (ReadFlatCoords_too_large MaxGeometryElements BigEndian 2
                   (NewReader (bytes_of [0; 16; 0; 1;  0x3F; 0xF0; 0; 0; 0; 0; 0; 0;
                                         0x40; 0; 0; 0; 0; 0; 0; 0]))
                   1048577 _ _) _).
  - vm_compute. reflexivity.
  - reflexivity.
Defined.

(** ** The tables of the package *)

Lemma MaxGeometryElements_ok : BoundsPolicy_ok MaxGeometryElements.
Proof. split; [reflexivity | repeat constructor; discriminate]. Qed.

(** C8. The table of limits has exactly four entries, for the levels 0 to 3;
    the package initialises them to 0, 2^20 = 1048576, 2^15 = 32768 and
    2^10 = 1024. *)
Theorem MaxGeometryElements_defaults :
  length MaxGeometryElements = 4%nat /\
  limit MaxGeometryElements 0 = 0 /\
  limit MaxGeometryElements 1 = 2 ^ 20 /\ limit MaxGeometryElements 1 = 1048576 /\
  limit MaxGeometryElements 2 = 2 ^ 15 /\ limit MaxGeometryElements 2 = 32768 /\
  limit MaxGeometryElements 3 = 2 ^ 10 /\ limit MaxGeometryElements 3 = 1024 /\
  BoundsPolicy_ok MaxGeometryElements.
Proof.
  repeat split; try reflexivity.
  apply MaxGeometryElements_ok.
Qed.

(** C7. Resolving the byte-order id 0 gives big-endian and the id 1 gives
    little-endian; every other id, 99 for one, fails with
    [ErrUnknownByteOrder] carrying that id. *)
Theorem resolve_byte_order :
  resolve Byte.x00 = inl BigEndian /\
  resolve Byte.x01 = inl LittleEndian /\
  (forall id, id <> XDRID -> id <> NDRID -> resolve id = inr (ErrUnknownByteOrder id)) /\
  byte.of_Z 99 = Byte.x63 /\
  resolve Byte.x63 = inr (ErrUnknownByteOrder Byte.x63).
Proof.
  repeat split.
  intros id H0 H1. destruct id; try reflexivity; contradiction.
Qed.

Lemma resolve_byte_order_witness :
  resolve (byte.of_Z 99) = inr (ErrUnknownByteOrder (byte.of_Z 99)).
Proof.
  apply (proj1 (proj2 (proj2 resolve_byte_order))); discriminate.
Defined.

(** ** The scenario of the specification, Level 1 *)

(** C6. Stride 2, big-endian, the coordinates (1.0, 2.0) and (3.0, 4.0):
    [WriteFlatCoords1] produces the four bytes 00 00 00 02 and then the
    binary64 patterns of 1.0, 2.0, 3.0 and 4.0, eight bytes each, most
    significant byte first; [ReadFlatCoords1] with stride 2 reads these bytes
    back as [1.0, 2.0, 3.0, 4.0]. *)
Theorem Level1_scenario :
  let coords := [f64 1; f64 2; f64 3; f64 4] in
  let bs := bytes_of [0; 0; 0; 2;
                      0x3F; 0xF0; 0; 0; 0; 0; 0; 0;
                      0x40; 0x00; 0; 0; 0; 0; 0; 0;
                      0x40; 0x08; 0; 0; 0; 0; 0; 0;
                      0x40; 0x10; 0; 0; 0; 0; 0; 0] in
  map Float64bits coords
  = [0x3FF0000000000000; 0x4000000000000000; 0x4008000000000000; 0x4010000000000000] /\
  bs = PutUint32 BigEndian 2
         ++ PutUint64 BigEndian 0x3FF0000000000000 ++ PutUint64 BigEndian 0x4000000000000000
         ++ PutUint64 BigEndian 0x4008000000000000 ++ PutUint64 BigEndian 0x4010000000000000 /\
  WriteFlatCoords1 BigEndian coords 2 NewBuffer = Done (None, mkWriter bs None) /\
  ReadFlatCoords1 MaxGeometryElements BigEndian 2 (NewReader bs)
  = Done ((coords, None), mkReader [] io_EOF [32; 4]).
Proof.
  cbv zeta. repeat split; vm_compute; reflexivity.
Qed.

(** ** Level 1: what is written and what is read back *)

Lemma limit_range limits level :
  BoundsPolicy_ok limits -> 0 <= limit limits level < 2 ^ 32.
Proof.
  intros [_ F]. unfold limit.
  destruct (nth_in_or_default level limits 0) as [I | ->]; [|lia].
  rewrite Forall_forall in F. exact (F _ I).
Qed.

Lemma written_WriteFlatCoords1 order coords stride :
  stride <> 0 ->
  written (WriteFlatCoords1 order coords stride)
  = Some (Level1_block order (uint32 (Z.quot (len coords) stride)) coords).
Proof.
  intros Hs. unfold written, NewBuffer.
  now rewrite WriteFlatCoords1_buffer.
Qed.

(** Two blocks that are equal have the same count and as many scalars. *)
Lemma Level1_block_inj order c1 coords1 c2 coords2 :
  0 <= c1 < 2 ^ 32 -> 0 <= c2 < 2 ^ 32 ->
  Level1_block order c1 coords1 = Level1_block order c2 coords2 ->
  c1 = c2 /\ len coords1 = len coords2.
Proof.
  intros H1 H2 E. unfold Level1_block in E. split.
  - apply (f_equal (firstn 4)) in E.
    rewrite !firstn_exact in E by (unfold PutUint32; now rewrite length_PutUint).
    apply (f_equal (Uint32 order)) in E.
    now rewrite !Uint32_PutUint32 in E.
  - apply (f_equal len) in E.
    rewrite !len_app, !len_encode_float64s in E.
    unfold len, PutUint32 in E. rewrite !length_PutUint in E. unfold len. lia.
Qed.

(** C9, as the code has it.  For a stride of one or more and [coords] whose
    length is not a multiple of it, [WriteFlatCoords1] on a stream that takes
    everything returns without error: it writes the count field
    [uint32(len(coords)/stride)], which is the quotient rounded down whenever
    that is below 2^32 (and its low 32 bits otherwise), and then all the
    [len(coords)] scalars, which decode to [coords] bit for bit.  The count
    times the stride is less than the number of scalars that follow, so what
    was written is not a well-formed Level-1 block. *)
Theorem WriteFlatCoords1_not_multiple order coords stride o :
  0 < stride ->
  len coords mod stride <> 0 ->
  let count := uint32 (len coords / stride) in
  let payload := encode_float64s order coords in
  WriteFlatCoords1 order coords stride (mkWriter o None)
  = Done (None, mkWriter (o ++ PutUint32 order count ++ payload) None) /\
  Uint32 order (PutUint32 order count) = count /\
  (len coords / stride < 2 ^ 32 -> count = len coords / stride) /\
  len payload = 8 * len coords /\
  decode_float64s order (length coords) payload = coords /\
  count * stride < len coords /\
  ~ Level1_wellformed order stride (PutUint32 order count ++ payload).
Proof.
  intros Hs Hm count payload.
  pose proof (len_nonneg coords) as Hl.
  assert (Hq : 0 <= len coords / stride) by (apply Z.div_pos; lia).
  assert (Hc : 0 <= count < 2 ^ 32) by apply uint32_range.
  assert (Hlt : count * stride < len coords).
  { pose proof (uint32_le _ Hq). pose proof (Z.div_mod (len coords) stride).
    pose proof (Z.mod_pos_bound (len coords) stride Hs). fold count in H. nia. }
  split; [|split; [|split; [|split; [|split; [|split]]]]].
  - rewrite WriteFlatCoords1_buffer by lia.
    rewrite Z.quot_div_nonneg by lia. reflexivity.
  - now apply Uint32_PutUint32.
  - intros Hfit. apply uint32_small. lia.
  - apply len_encode_float64s.
  - apply decode_encode_float64s.
  - exact Hlt.
  - intros (c & coords' & Hc' & Hlen & E).
    apply (Level1_block_inj order count coords c coords' Hc Hc') in E as [-> E].
    lia.
Qed.

(** Five scalars written with stride 2: the count 2, then five scalars. *)
Lemma WriteFlatCoords1_not_multiple_witness :
  WriteFlatCoords1 LittleEndian [f64 1; f64 2; f64 3; f64 4; f64 5] 2 NewBuffer
  = Done (None, mkWriter (PutUint32 LittleEndian 2
                            ++ encode_float64s LittleEndian [f64 1; f64 2; f64 3; f64 4; f64 5])
                         None) /\
  decode_float64s LittleEndian 5
    (encode_float64s LittleEndian [f64 1; f64 2; f64 3; f64 4; f64 5])
  = [f64 1; f64 2; f64 3; f64 4; f64 5] /\
  2 * 2 < len [f64 1; f64 2; f64 3; f64 4; f64 5].
Proof.
  assert (Hs : 0 < 2) by reflexivity.
  assert (Hm : len [f64 1; f64 2; f64 3; f64 4; f64 5] mod 2 <> 0) by discriminate.
  pose proof (WriteFlatCoords1_not_multiple LittleEndian
                [f64 1; f64 2; f64 3; f64 4; f64 5] 2 [] Hs Hm)
    as (Hw & _ & _ & _ & Hd & Hlt & _).
  split; [exact Hw | split; [exact Hd | exact Hlt]].
Defined.

(** C9 fails for the stride zero: one scalar is not a multiple of 0, and
    [WriteFlatCoords1] does not return, it panics on the division
    [len(coords)/stride]. *)
Lemma WriteFlatCoords1_not_multiple_counterexample :
  len [f64 1] mod 0 <> 0 /\
  WriteFlatCoords1 BigEndian [f64 1] 0 NewBuffer = Panicked PanicDivideByZero /\
  ~ (exists err w', WriteFlatCoords1 BigEndian [f64 1] 0 NewBuffer = Done (err, w')).
Proof.
  split; [discriminate|]. split; [reflexivity|].
  intros (err & w' & H). discriminate H.
Qed.

(** It fails for a negative stride too: five scalars with the stride -2 are
    written with the count field FF FF FF FE, the quotient -2 of Go's
    truncated division taken as a [uint32], where the quotient rounded down
    is -3. *)
Example WriteFlatCoords1_negative_stride_count :
  len [f64 1; f64 2; f64 3; f64 4; f64 5] mod (-2) <> 0 /\
  len [f64 1; f64 2; f64 3; f64 4; f64 5] / (-2) = -3 /\
  written (WriteFlatCoords1 BigEndian [f64 1; f64 2; f64 3; f64 4; f64 5] (-2))
  = Some (bytes_of [255; 255; 255; 254]
            ++ encode_float64s BigEndian [f64 1; f64 2; f64 3; f64 4; f64 5]) /\
  Uint32 BigEndian (bytes_of [255; 255; 255; 254]) = 4294967294.
Proof.
  split; [discriminate|]. split; [reflexivity|].
  split; vm_compute; reflexivity.
Qed.

(** And the count field holds 32 bits only: 2^33+1 scalars with the stride 2
    are written with the count field 0, where the quotient rounded down is
    2^32. *)
Example WriteFlatCoords1_count_truncated :
  let coords := repeat (f64 0) (Z.to_nat 8589934593) in
  len coords mod 2 <> 0 /\
  len coords / 2 = 4294967296 /\
  written (WriteFlatCoords1 BigEndian coords 2) = Some (Level1_block BigEndian 0 coords) /\
  Uint32 BigEndian (PutUint32 BigEndian 0) = 0.
Proof.
  intros coords.
  assert (Hlen : len coords = 8589934593).
  { unfold coords, len. rewrite repeat_length. apply Z2Nat.id. discriminate. }
  clearbody coords.
  split; [rewrite Hlen; discriminate|]. split; [rewrite Hlen; reflexivity|].
  split; [|reflexivity].
  rewrite written_WriteFlatCoords1 by discriminate. rewrite Hlen. reflexivity.
Qed.

(** C2, within the limit.  For a stride among 1, 2, 3 and 4 and [coords]
    whose length is a multiple of the stride and holds no more than
    [limit[1]] coordinates, [WriteFlatCoords1] followed by [ReadFlatCoords1]
    on the bytes produced, with the same byte order and stride, returns
    [coords], bit for bit. *)
Theorem Level1_roundtrip_within_limit limits order stride coords :
  BoundsPolicy_ok limits ->
  1 <= stride <= 4 ->
  len coords mod stride = 0 ->
  len coords / stride <= limit limits 1 ->
  Level1_roundtrip limits order stride coords.
Proof.
  intros Hok Hs Hm Hl.
  pose proof (len_nonneg coords) as Hlen.
  pose proof (limit_range limits 1 Hok) as Hr.
  assert (Hq : 0 <= len coords / stride) by (apply Z.div_pos; lia).
  assert (He : len coords / stride * stride = len coords).
  { pose proof (Z.div_mod (len coords) stride). lia. }
  exists (Level1_block order (len coords / stride) coords). split.
  - rewrite written_WriteFlatCoords1 by lia.
    rewrite Z.quot_div_nonneg, uint32_small by lia. reflexivity.
  - eexists. unfold NewReader.
    rewrite <- (app_nil_r (Level1_block _ _ _)).
    apply ReadFlatCoords1_ok; nia.
Qed.

Lemma Level1_roundtrip_within_limit_witness :
  Level1_roundtrip MaxGeometryElements BigEndian 2 [f64 1; f64 2; f64 3; f64 4].
Proof.
  apply Level1_roundtrip_within_limit.
  - apply MaxGeometryElements_ok.
  - lia.
  - reflexivity.
  - discriminate.
Defined.

(** A block whose count exceeds [limit[1]] is refused, whatever follows the
    count. *)
Lemma ReadFlatCoords1_refuses limits order stride count coords :
  0 <= count < 2 ^ 32 ->
  count > limit limits 1 ->
  ReadFlatCoords1 limits order stride (NewReader (Level1_block order count coords))
  = Done (([], Some (ErrGeometryTooLarge 1 count (limit limits 1))),
          mkReader (encode_float64s order coords) io_EOF [4]).
Proof.
  intros Hc Hgt. unfold ReadFlatCoords1, NewReader, Level1_block.
  run_with ltac:(now apply binary_Read_uint32_ok).
  apply Z.gt_lt, Z.gtb_lt in Hgt. now rewrite Hgt.
Qed.

(** C2 fails beyond the limit: a sequence of 1048577 coordinates of stride 2
    (2097154 scalars) is written, with the count 1048577, and reading it back
    with the limits of the package returns [ErrGeometryTooLarge] instead of
    the coordinates. *)
Lemma Level1_roundtrip_counterexample :
  let coords := repeat (f64 0) (Z.to_nat 2097154) in
  len coords mod 2 = 0 /\
  written (WriteFlatCoords1 BigEndian coords 2) = Some (Level1_block BigEndian 1048577 coords) /\
  returns (ReadFlatCoords1 MaxGeometryElements BigEndian 2)
          (NewReader (Level1_block BigEndian 1048577 coords))
          ([], Some (ErrGeometryTooLarge 1 1048577 1048576)) /\
  ~ Level1_roundtrip MaxGeometryElements BigEndian 2 coords.
Proof.
  intros coords.
  assert (Hlen : len coords = 2097154).
  { unfold coords, len. rewrite repeat_length. apply Z2Nat.id. discriminate. }
  clearbody coords.
  assert (Hw : written (WriteFlatCoords1 BigEndian coords 2)
               = Some (Level1_block BigEndian 1048577 coords)).
  { rewrite written_WriteFlatCoords1 by discriminate. rewrite Hlen. reflexivity. }
  assert (Hr : ReadFlatCoords1 MaxGeometryElements BigEndian 2
                 (NewReader (Level1_block BigEndian 1048577 coords))
               = Done (([], Some (ErrGeometryTooLarge 1 1048577 1048576)),
                       mkReader (encode_float64s BigEndian coords) io_EOF [4])).
  { apply (ReadFlatCoords1_refuses MaxGeometryElements); [lia | reflexivity]. }
  repeat split.
  - now rewrite Hlen.
  - exact Hw.
  - eexists. exact Hr.
  - intros (bs & Hw' & r' & Hr').
    rewrite Hw in Hw'. injection Hw' as <-.
    rewrite Hr in Hr'. discriminate Hr'.
Qed.

(** ** Level 2: the loop of the read *)

Section Level2_read.

Variable limits : list Z.
Variable order : ByteOrder.
Variable stride : Z.

Lemma ReadFlatCoords2_loop_S iters flatCoordss ends r :
  ReadFlatCoords2_loop limits order stride (S iters) flatCoordss ends r
  = match ReadFlatCoords1 limits order stride r with
    | Done ((flatCoords, None), r1) =>
        ReadFlatCoords2_loop limits order stride iters (flatCoordss ++ flatCoords)
          (ends ++ [len (flatCoordss ++ flatCoords)]) r1
    | Done ((_, Some e), r1) => Done (([], [], Some e), r1)
    | Panicked p => Panicked p
    end.
Proof.
  cbn [ReadFlatCoords2_loop]. unfold bind.
  destruct (ReadFlatCoords1 limits order stride r) as [[[x [e|]] r1]|p]; reflexivity.
Qed.

(** A loop that ends without error has read as many blocks as it had
    iterations to run; it returns them appended to the buffer, and the running
    lengths appended to the ends. *)
Lemma ReadFlatCoords2_loop_success iters :
  forall flatCoordss ends r fc' ends' r',
    ReadFlatCoords2_loop limits order stride iters flatCoordss ends r
    = Done ((fc', ends', None), r') ->
    exists blocks,
      length blocks = iters /\
      Level1_reads limits order stride r blocks r' /\
      fc' = flatCoordss ++ concat blocks /\
      ends' = ends ++ ends_from (len flatCoordss) blocks.
Proof.
  induction iters as [|iters IH]; intros fcs ends r fc' ends' r' H.
  - injection H as <- <- <-. exists []. cbn.
    rewrite !app_nil_r. repeat split. constructor.
  - rewrite ReadFlatCoords2_loop_S in H.
    destruct (ReadFlatCoords1 limits order stride r) as [[[x [e|]] r1]|p] eqn:E;
      try discriminate.
    apply IH in H as (blocks & L & R & -> & ->).
    exists (x :: blocks). cbn [length concat ends_from].
    rewrite <- !app_assoc, len_app. cbn [app].
    repeat split; [now rewrite L | econstructor; eassumption].
Qed.

(** A loop that ends with an error returns nothing else: a Level-1 read
    failed, after some that succeeded, and its error is the one returned. *)
Lemma ReadFlatCoords2_loop_failure iters :
  forall flatCoordss ends r fc' ends' e r',
    ReadFlatCoords2_loop limits order stride iters flatCoordss ends r
    = Done ((fc', ends', Some e), r') ->
    fc' = [] /\ ends' = [] /\
    exists blocks ri x,
      (length blocks < iters)%nat /\
      Level1_reads limits order stride r blocks ri /\
      ReadFlatCoords1 limits order stride ri = Done ((x, Some e), r').
Proof.
  induction iters as [|iters IH]; intros fcs ends r fc' ends' e r' H.
  - discriminate.
  - rewrite ReadFlatCoords2_loop_S in H.
    destruct (ReadFlatCoords1 limits order stride r) as [[[x [e1|]] r1]|p] eqn:E;
      try discriminate.
    + injection H as <- <- <- <-. do 2 (split; [reflexivity|]).
      exists [], r, x. split; [cbn [length]; lia | split; [constructor | exact E]].
    + apply IH in H as (-> & -> & blocks & ri & y & L & R & F).
      do 2 (split; [reflexivity|]). exists (x :: blocks), ri, y.
      split; [cbn [length]; lia | split; [econstructor; eassumption | exact F]].
Qed.

(** And the other way round: a Level-1 read that fails within the iterations
    makes the loop return its error and nothing else. *)
Lemma ReadFlatCoords2_loop_fails r blocks ri :
  Level1_reads limits order stride r blocks ri ->
  forall iters flatCoordss ends x e r',
    (length blocks < iters)%nat ->
    ReadFlatCoords1 limits order stride ri = Done ((x, Some e), r') ->
    ReadFlatCoords2_loop limits order stride iters flatCoordss ends r
    = Done (([], [], Some e), r').
Proof.
  induction 1 as [r | r fc r1 blocks r2 E R IH]; intros iters fcs ends x e r' L F.
  - destruct iters as [|iters]; [cbn [length] in L; lia|].
    rewrite ReadFlatCoords2_loop_S, F. reflexivity.
  - destruct iters as [|iters]; [cbn [length] in L; lia|].
    rewrite ReadFlatCoords2_loop_S, E.
    eapply IH; [cbn [length] in L; lia | exact F].
Qed.

End Level2_read.

(** ** The ends of consecutive sub-arrays *)

Lemma length_ends_from blocks : forall offset,
  length (ends_from offset blocks) = length blocks.
Proof.
  induction blocks as [|b blocks IH]; intros offset; cbn; [reflexivity|].
  now rewrite IH.
Qed.

Lemma HdRel_ends_from (R : Z -> Z -> Prop) blocks offset :
  (forall b, In b blocks -> R offset (offset + len b)) ->
  HdRel R offset (ends_from offset blocks).
Proof.
  destruct blocks as [|b blocks]; intros H; cbn; constructor.
  apply H. now left.
Qed.

Lemma Sorted_le_ends_from blocks : forall offset,
  Sorted Z.le (ends_from offset blocks).
Proof.
  induction blocks as [|b blocks IH]; intros offset; cbn; constructor.
  - apply IH.
  - apply HdRel_ends_from. intros b' _. pose proof (len_nonneg b'). lia.
Qed.

Lemma Sorted_lt_ends_from blocks : forall offset,
  Forall (fun b => b <> []) blocks ->
  Sorted Z.lt (ends_from offset blocks).
Proof.
  induction blocks as [|b blocks IH]; intros offset F; cbn; constructor.
  - apply IH. now inversion F.
  - apply HdRel_ends_from. intros b' I.
    inversion F as [|? ? _ F']; subst. rewrite Forall_forall in F'.
    specialize (F' b' I). destruct b'; [contradiction|]. unfold len. cbn. lia.
Qed.

Lemma last_cons {A : Type} (l : list A) : forall x d, last (x :: l) d = last l x.
Proof.
  induction l as [|y l IH]; intros x d; [reflexivity|].
  change (last (x :: y :: l) d) with (last (y :: l) d).
  now rewrite !IH.
Qed.

Lemma last_ends_from blocks : forall offset,
  last (ends_from offset blocks) offset = offset + len (concat blocks).
Proof.
  induction blocks as [|b blocks IH]; intros offset.
  - cbn. unfold len. cbn. lia.
  - cbn [ends_from concat]. rewrite last_cons, IH, len_app. lia.
Qed.

(** ** Level 2: what a read returns *)

(** A Level-2 read that returns without error has read the count and then
    that many Level-1 blocks. *)
Lemma ReadFlatCoords2_success limits order stride r fc ends r' :
  ReadFlatCoords2 limits order stride r = Done ((fc, ends, None), r') ->
  exists n r1 blocks,
    binary_Read_uint32 order r = Done ((n, None), r1) /\
    0 <= n <= limit limits 2 /\
    len blocks = n /\
    Level1_reads limits order stride r1 blocks r' /\
    fc = concat blocks /\
    ends = ends_from 0 blocks.
Proof.
  unfold ReadFlatCoords2. intros H.
  destruct (binary_Read_uint32 order r) as [[[n [e|]] r1]|p] eqn:E;
    unfold bind in H; rewrite E in H; try discriminate.
  destruct (n >? limit limits 2) eqn:G; [discriminate|].
  pose proof (binary_Read_uint32_inv _ _ _ _ E) as (Hn & _).
  apply ReadFlatCoords2_loop_success in H as (blocks & L & R & -> & ->).
  pose proof (Zgt_cases n (limit limits 2)) as C. rewrite G in C.
  exists n, r1, blocks.
  split; [reflexivity|]. split; [lia|]. split; [unfold len; lia|].
  split; [exact R|]. split; reflexivity.
Qed.

(** C4, as the code has it.  After a Level-2 read that returns without
    error, the ends are in non-decreasing order (in strictly increasing order
    when none of the sub-arrays read is empty), the last of them is the length
    of the scalars returned (there are no scalars when there are no ends), and
    there are as many of them as the outer count [n] that was decoded. *)
Theorem ReadFlatCoords2_Ends limits order stride r flatCoords ends r' :
  ReadFlatCoords2 limits order stride r = Done ((flatCoords, ends, None), r') ->
  exists n r1 blocks,
    binary_Read_uint32 order r = Done ((n, None), r1) /\
    Level1_reads limits order stride r1 blocks r' /\
    flatCoords = concat blocks /\
    len ends = n /\
    Sorted Z.le ends /\
    (Forall (fun b => b <> []) blocks -> Sorted Z.lt ends) /\
    last ends 0 = len flatCoords /\
    (ends = [] -> flatCoords = []).
Proof.
  intros H.
  apply ReadFlatCoords2_success in H as (n & r1 & blocks & E & _ & L & R & -> & ->).
  exists n, r1, blocks.
  split; [exact E|]. split; [exact R|]. split; [reflexivity|].
  split; [unfold len in *; now rewrite length_ends_from|].
  split; [apply Sorted_le_ends_from|].
  split; [apply Sorted_lt_ends_from|].
  split; [apply last_ends_from|].
  destruct blocks; [reflexivity | discriminate].
Qed.

(** Two rings of stride 2, of three and of two coordinates. *)
Lemma ReadFlatCoords2_Ends_witness :
  exists n r1 blocks,
    binary_Read_uint32 BigEndian
      (NewReader (Level1_block BigEndian 2 [] ++
                  Level1_block BigEndian 3 [f64 0; f64 0; f64 1; f64 0; f64 1; f64 1] ++
                  Level1_block BigEndian 2 [f64 2; f64 2; f64 3; f64 2]))
    = Done ((n, None), r1) /\
    Level1_reads MaxGeometryElements BigEndian 2 r1 blocks (mkReader [] io_EOF [32; 4; 48; 4; 4]) /\
    [f64 0; f64 0; f64 1; f64 0; f64 1; f64 1; f64 2; f64 2; f64 3; f64 2] = concat blocks /\
    len [6; 10] = n /\
    Sorted Z.le [6; 10] /\
    (Forall (fun b => b <> []) blocks -> Sorted Z.lt [6; 10]) /\
    last [6; 10] 0 = len [f64 0; f64 0; f64 1; f64 0; f64 1; f64 1; f64 2; f64 2; f64 3; f64 2] /\
    ([6; 10] = [] ->
     [f64 0; f64 0; f64 1; f64 0; f64 1; f64 1; f64 2; f64 2; f64 3; f64 2] = []).
Proof.
  apply (ReadFlatCoords2_Ends MaxGeometryElements BigEndian 2).
  vm_compute. reflexivity.
Defined.

(** C4 fails on empty sub-arrays: the outer count 2 and two Level-1 blocks of
    count 0 are read without error, and the ends returned, 0 and 0, are not in
    strictly increasing order. *)
Lemma ReadFlatCoords2_Ends_counterexample :
  ReadFlatCoords2 MaxGeometryElements BigEndian 2
    (NewReader (bytes_of [0; 0; 0; 2;  0; 0; 0; 0;  0; 0; 0; 0]))
  = Done (([], [0; 0], None), mkReader [] io_EOF [4; 4; 4]) /\
  ~ Sorted Z.lt [0; 0].
Proof.
  split; [vm_compute; reflexivity|].
  intros H. inversion H as [|? ? _ Hd]. inversion Hd. lia.
Qed.

(** C5. A Level-2 read that fails returns the error only: the scalars and
    the ends returned are both nil, and the error is the one of the step that
    failed, as that step gave it: the read of the count, the check of the
    count against [limit[2]], or one of the Level-1 reads.  Each such failure
    makes the Level-2 read return exactly this. *)
Theorem ReadFlatCoords2_all_or_nothing limits order stride r :
  (forall flatCoords ends e r',
     ReadFlatCoords2 limits order stride r = Done ((flatCoords, ends, Some e), r') ->
     flatCoords = [] /\ ends = [] /\ Level2_failure limits order stride r e) /\
  (forall e,
     Level2_failure limits order stride r e ->
     returns (ReadFlatCoords2 limits order stride) r ([], [], Some e)).
Proof.
  split.
  - intros fc ends e r' H. unfold ReadFlatCoords2 in H.
    destruct (binary_Read_uint32 order r) as [[[n [e1|]] r1]|p] eqn:E;
      unfold bind in H; rewrite E in H; try discriminate.
    + injection H as <- <- <- <-. do 2 (split; [reflexivity|]).
      eapply Level2_count_fails. exact E.
    + destruct (n >? limit limits 2) eqn:G.
      * injection H as <- <- <- <-. do 2 (split; [reflexivity|]).
        eapply Level2_too_large; [exact E|]. now apply Z.lt_gt, Z.gtb_lt.
      * pose proof (binary_Read_uint32_inv _ _ _ _ E) as (Hn & _).
        pose proof (Zgt_cases n (limit limits 2)) as C. rewrite G in C.
        apply ReadFlatCoords2_loop_failure in H as (-> & -> & blocks & ri & x & L & R & F).
        do 2 (split; [reflexivity|]).
        eapply Level2_inner_fails; try eassumption. unfold len. lia.
  - intros e F. unfold returns, ReadFlatCoords2.
    destruct F as [n e r1 E | n r1 E G | n r1 blocks ri x e r' E G R L F].
    + exists r1. now run_with ltac:(exact E).
    + exists r1. run_with ltac:(exact E).
      apply Z.gt_lt, Z.gtb_lt in G. now rewrite G.
    + exists r'. run_with ltac:(exact E).
      destruct (n >? limit limits 2) eqn:G'; [apply Z.gtb_lt in G'; lia|].
      eapply ReadFlatCoords2_loop_fails; [exact R | unfold len in L; lia | exact F].
Qed.

(** The second of two blocks is cut short: what the first block held is not
    returned. *)
Lemma ReadFlatCoords2_all_or_nothing_witness :
  @nil float64 = [] /\ @nil Z = [] /\
  Level2_failure MaxGeometryElements BigEndian 2
    (NewReader (PutUint32 BigEndian 2 ++ Level1_block BigEndian 1 [f64 1; f64 2]
                ++ PutUint32 BigEndian 1 ++ PutUint64 BigEndian 0))
    io_ErrUnexpectedEOF.
Proof.
  apply (proj1 (ReadFlatCoords2_all_or_nothing MaxGeometryElements BigEndian 2 _)
           [] [] io_ErrUnexpectedEOF (mkReader [] io_EOF [16; 4; 16; 4; 4])).
  vm_compute. reflexivity.
Defined.

(** ** Level 2: the loop of the write *)

Lemma slice_ok {S A : Type} (s : list A) low high (st : S) :
  0 <= low <= high -> high <= len s ->
  slice s low high st
  = Done (firstn (Z.to_nat (high - low)) (skipn (Z.to_nat low) s), st).
Proof.
  intros H1 H2. unfold slice.
  destruct (0 <=? low) eqn:E1; [|apply Z.leb_gt in E1; lia].
  destruct (low <=? high) eqn:E2; [|apply Z.leb_gt in E2; lia].
  destruct (high <=? len s) eqn:E3; [|apply Z.leb_gt in E3; lia].
  reflexivity.
Qed.

Lemma slice_panics {S A : Type} (s : list A) low high (st : S) p :
  slice s low high st = Panicked p -> p = PanicSliceBounds.
Proof.
  unfold slice. destruct (_ && _); [discriminate|].
  unfold raise. congruence.
Qed.

Lemma WriteFlatCoords1_panics order coords stride w p :
  WriteFlatCoords1 order coords stride w = Panicked p ->
  p = PanicDivideByZero /\ stride = 0.
Proof.
  destruct (Z.eq_dec stride 0) as [-> | Hs].
  - unfold WriteFlatCoords1, int_div, bind, raise. cbn [Z.eqb]. intros H.
    injection H as <-. split; reflexivity.
  - destruct (WriteFlatCoords1_total order coords stride w Hs) as (err & w' & ->).
    discriminate.
Qed.

Lemma partition_of_le ends : forall offset total,
  partition_of offset ends total -> offset <= total.
Proof.
  induction ends as [|e ends IH]; intros offset total; cbn.
  - lia.
  - intros [H1 H2]. apply IH in H2. lia.
Qed.

Lemma len_segment {A : Type} (s : list A) offset end_ :
  0 <= offset <= end_ -> end_ <= len s ->
  len (firstn (Z.to_nat (end_ - offset)) (skipn (Z.to_nat offset) s)) = end_ - offset.
Proof.
  intros H1 H2. unfold len in *. rewrite length_firstn, length_skipn. lia.
Qed.

Lemma length_segments flatCoords ends : forall offset,
  length (segments flatCoords offset ends) = length ends.
Proof.
  induction ends as [|e ends IH]; intros offset; cbn [segments length]; [reflexivity|].
  now rewrite IH.
Qed.

(** The sub-arrays of a partition put together are the buffer, and their ends
    are the ends of the partition. *)
Lemma segments_partition flatCoords ends : forall offset,
  0 <= offset ->
  partition_of offset ends (len flatCoords) ->
  concat (segments flatCoords offset ends) = skipn (Z.to_nat offset) flatCoords /\
  ends_from offset (segments flatCoords offset ends) = ends.
Proof.
  induction ends as [|e ends IH]; intros offset H0 P; cbn [segments concat ends_from].
  - cbn [partition_of] in P. split; [|reflexivity].
    symmetry. apply skipn_all2. unfold len in P. lia.
  - destruct P as [P1 P2]. pose proof (partition_of_le _ _ _ P2) as P3.
    destruct (IH e ltac:(lia) P2) as [C E].
    rewrite C, len_segment by lia. split.
    + replace (Z.to_nat e) with (Z.to_nat (e - offset) + Z.to_nat offset)%nat by lia.
      rewrite <- skipn_skipn. apply firstn_skipn.
    + replace (offset + (e - offset)) with e by lia. now rewrite E.
Qed.

(** On a stream that takes everything, the loop writes the Level-1 blocks of
    the sub-arrays that the ends cut out. *)
Lemma WriteFlatCoords2_loop_buffer order flatCoords stride ends : forall offset o,
  stride <> 0 ->
  0 <= offset ->
  partition_of offset ends (len flatCoords) ->
  WriteFlatCoords2_loop order flatCoords stride offset ends (mkWriter o None)
  = Done (None, mkWriter (o ++ Level1_blocks order stride (segments flatCoords offset ends)) None).
Proof.
  induction ends as [|e ends IH]; intros offset o Hs H0 P.
  - cbn. now rewrite app_nil_r.
  - destruct P as [P1 P2]. pose proof (partition_of_le _ _ _ P2) as P3.
    cbn [WriteFlatCoords2_loop segments].
    run_with ltac:(apply slice_ok; lia).
    run_with ltac:(now apply WriteFlatCoords1_buffer).
    rewrite IH by (assumption || lia).
    unfold Level1_blocks. cbn [flat_map]. now rewrite <- app_assoc.
Qed.

(** ** Level 2: reading blocks back *)

Lemma ReadFlatCoords2_loop_blocks limits order stride blocks :
  0 < stride ->
  BoundsPolicy_ok limits ->
  Forall (readable stride (limit limits 1)) blocks ->
  forall acc ends rest flt reqs,
  exists reqs',
    ReadFlatCoords2_loop limits order stride (length blocks) acc ends
      (mkReader (Level1_blocks order stride blocks ++ rest) flt reqs)
    = Done ((acc ++ concat blocks, ends ++ ends_from (len acc) blocks, None),
            mkReader rest flt reqs').
Proof.
  intros Hs Hok. pose proof (limit_range limits 1 Hok) as Hr.
  induction 1 as [|b blocks (Hm & Hl & Hb) F IH]; intros acc ends rest flt reqs.
  - exists reqs. cbn. now rewrite !app_nil_r.
  - pose proof (len_nonneg b) as Hlen.
    assert (Hq : 0 <= len b / stride) by (apply Z.div_pos; lia).
    assert (He : len b / stride * stride = len b).
    { pose proof (Z.div_mod (len b) stride). lia. }
    destruct (IH (acc ++ b) (ends ++ [len (acc ++ b)]) rest flt
                 (note (8 * len b) (4 :: reqs))) as [reqs' E].
    exists reqs'. cbn [length]. rewrite ReadFlatCoords2_loop_S.
    unfold Level1_blocks. cbn [flat_map]. rewrite <- app_assoc.
    rewrite Z.quot_div_nonneg, uint32_small by lia.
    rewrite ReadFlatCoords1_ok by lia.
    fold (Level1_blocks order stride blocks). rewrite E.
    cbn [concat ends_from]. rewrite <- !app_assoc, len_app. reflexivity.
Qed.

Lemma segments_readable stride limit1 flatCoords ends : forall offset,
  0 <= offset ->
  len flatCoords < 2 ^ 63 ->
  partition_of offset ends (len flatCoords) ->
  whole_tuples stride limit1 offset ends ->
  Forall (readable stride limit1) (segments flatCoords offset ends).
Proof.
  induction ends as [|e ends IH]; intros offset H0 Hb P W; cbn [segments]; constructor.
  - destruct P as [P1 P2]. destruct W as (W1 & W2 & _).
    pose proof (partition_of_le _ _ _ P2) as P3.
    unfold readable. rewrite len_segment by lia. repeat split; (assumption || lia).
  - destruct P as [P1 P2]. destruct W as (_ & _ & W3). apply IH; (assumption || lia).
Qed.

Lemma written_WriteFlatCoords2 order flatCoords ends stride :
  stride <> 0 ->
  partition_of 0 ends (len flatCoords) ->
  written (WriteFlatCoords2 order flatCoords ends stride)
  = Some (PutUint32 order (uint32 (len ends))
            ++ Level1_blocks order stride (segments flatCoords 0 ends)).
Proof.
  intros Hs P. unfold written, WriteFlatCoords2, NewBuffer, binary_Write_uint32.
  run_with ltac:(apply io_Write_buffer).
  now rewrite WriteFlatCoords2_loop_buffer by (assumption || lia).
Qed.

(** C3, for whole tuples within the limits.  For a stride of one or more, a
    buffer of scalars and ends that cut it into consecutive sub-arrays, each
    of whole tuples and of [limit[1]] tuples at most, [limit[2]] sub-arrays
    at most: [WriteFlatCoords2] followed by [ReadFlatCoords2] on the bytes
    produced, with the same byte order and stride, returns the same scalars
    and the same ends. *)
Theorem Level2_roundtrip_within_limits limits order stride flatCoords ends :
  BoundsPolicy_ok limits ->
  0 < stride ->
  len flatCoords < 2 ^ 63 ->
  partition_of 0 ends (len flatCoords) ->
  whole_tuples stride (limit limits 1) 0 ends ->
  len ends <= limit limits 2 ->
  Level2_roundtrip limits order stride flatCoords ends.
Proof.
  intros Hok Hs Hb P W L.
  pose proof (limit_range limits 2 Hok) as Hr.
  pose proof (len_nonneg ends) as Hn.
  destruct (segments_partition flatCoords ends 0 ltac:(lia) P) as [C E].
  pose proof (segments_readable stride _ flatCoords ends 0 ltac:(lia) Hb P W) as F.
  destruct (ReadFlatCoords2_loop_blocks limits order stride _ Hs Hok F [] [] [] io_EOF [4])
    as [reqs' R].
  change (len (@nil float64)) with 0 in R.
  rewrite length_segments, C, E, app_nil_r in R. cbn [app skipn Z.to_nat] in R.
  eexists. split.
  - apply written_WriteFlatCoords2; [lia | exact P].
  - exists (mkReader [] io_EOF reqs'). unfold ReadFlatCoords2, NewReader.
    rewrite uint32_small by lia.
    run_with ltac:(apply binary_Read_uint32_ok; lia).
    destruct (len ends >? limit limits 2) eqn:G; [apply Z.gtb_lt in G; lia|].
    unfold len at 1. rewrite Nat2Z.id. exact R.
Qed.

(** The two rings of the specification: stride 2, three coordinates and two
    coordinates, ends 6 and 10. *)
Lemma Level2_roundtrip_within_limits_witness :
  Level2_roundtrip MaxGeometryElements BigEndian 2
    [f64 0; f64 0; f64 1; f64 0; f64 1; f64 1; f64 2; f64 2; f64 3; f64 2] [6; 10].
Proof.
  apply Level2_roundtrip_within_limits.
  - apply MaxGeometryElements_ok.
  - reflexivity.
  - reflexivity.
  - cbn. lia.
  - cbn. repeat split; discriminate.
  - discriminate.
Defined.

(** C3 fails beyond the limit: a buffer of 1048577 coordinates of stride 2
    as one sub-array (ends [2097154]) is written, as the outer count 1 and a
    Level-1 block of count 1048577, and reading it back with the limits of the
    package returns [ErrGeometryTooLarge] only. *)
Lemma Level2_roundtrip_counterexample :
  let flatCoords := repeat (f64 0) (Z.to_nat 2097154) in
  let ends := [2097154] in
  partition_of 0 ends (len flatCoords) /\
  written (WriteFlatCoords2 BigEndian flatCoords ends 2)
  = Some (PutUint32 BigEndian 1 ++ Level1_block BigEndian 1048577 flatCoords) /\
  returns (ReadFlatCoords2 MaxGeometryElements BigEndian 2)
          (NewReader (PutUint32 BigEndian 1 ++ Level1_block BigEndian 1048577 flatCoords))
          ([], [], Some (ErrGeometryTooLarge 1 1048577 1048576)) /\
  ~ Level2_roundtrip MaxGeometryElements BigEndian 2 flatCoords ends.
Proof.
  intros flatCoords ends.
  assert (Hlen : len flatCoords = 2097154).
  { unfold flatCoords, len. rewrite repeat_length. apply Z2Nat.id. discriminate. }
  clearbody flatCoords. subst ends.
  assert (P : partition_of 0 [2097154] (len flatCoords))
    by (rewrite Hlen; cbn [partition_of]; lia).
  assert (Hseg : segments flatCoords 0 [2097154] = [flatCoords]).
  { cbn [segments]. rewrite Z.sub_0_r. cbn [Z.to_nat skipn].
    rewrite firstn_all2; [reflexivity|]. unfold len in Hlen. lia. }
  assert (Hw : written (WriteFlatCoords2 BigEndian flatCoords [2097154] 2)
               = Some (PutUint32 BigEndian 1 ++ Level1_block BigEndian 1048577 flatCoords)).
  { rewrite written_WriteFlatCoords2 by (discriminate || exact P).
    rewrite Hseg. unfold Level1_blocks. cbn [flat_map]. rewrite Hlen, app_nil_r.
    reflexivity. }
  assert (Hr : exists r',
             ReadFlatCoords2 MaxGeometryElements BigEndian 2
               (NewReader (PutUint32 BigEndian 1 ++ Level1_block BigEndian 1048577 flatCoords))
             = Done (([], [], Some (ErrGeometryTooLarge 1 1048577 1048576)), r')).
  { eexists. unfold ReadFlatCoords2, NewReader.
    run_with ltac:(apply binary_Read_uint32_ok; lia).
    change (1 >? limit MaxGeometryElements 2) with false. cbv iota.
    change (Z.to_nat 1) with 1%nat. rewrite ReadFlatCoords2_loop_S.
    unfold ReadFlatCoords1, Level1_block.
    run_with ltac:(apply binary_Read_uint32_ok; lia).
    change (1048577 >? limit MaxGeometryElements 1) with true. cbv iota.
    unfold ret. reflexivity. }
  split; [exact P|]. split; [exact Hw|]. split; [exact Hr|].
  intros (bs & Hw' & r2 & Hr2). destruct Hr as [r' Hr].
  assert (Hbs : bs = PutUint32 BigEndian 1 ++ Level1_block BigEndian 1048577 flatCoords)
    by congruence.
  subst bs. rewrite Hr in Hr2. discriminate Hr2.
Qed.

(** Nor does a sub-array that is not made of whole tuples come back: with
    stride 2, four scalars cut after the first one are read back as no scalars
    and the ends 0 and 0 (the first block is written with the count 0, and the
    read takes the count of the second block from the scalar that follows). *)
Example Level2_unaligned_ends :
  written (WriteFlatCoords2 BigEndian [f64 0; f64 1; f64 2; f64 3] [1; 4] 2)
  = Some (PutUint32 BigEndian 2
            ++ Level1_block BigEndian 0 [f64 0]
            ++ Level1_block BigEndian 1 [f64 1; f64 2; f64 3]) /\
  returns (ReadFlatCoords2 MaxGeometryElements BigEndian 2)
          (NewReader (PutUint32 BigEndian 2
                        ++ Level1_block BigEndian 0 [f64 0]
                        ++ Level1_block BigEndian 1 [f64 1; f64 2; f64 3]))
          ([], [0; 0], None).
Proof.
  split; [vm_compute; reflexivity|].
  eexists. vm_compute. reflexivity.
Qed.

(** ** Level 2: the slices of the write *)

(** In a non-decreasing sequence that starts at [x] or above, nothing exceeds
    the last element. *)
Lemma Sorted_le_last l : forall x,
  Sorted Z.le l -> HdRel Z.le x l ->
  x <= last l x /\ Forall (fun e => e <= last l x) l.
Proof.
  induction l as [|a l IH]; intros x S H.
  - cbn. split; [lia | constructor].
  - inversion S as [|? ? S' H']; subst. inversion H as [|? ? Hxa]; subst.
    destruct (IH a S' H') as [I1 I2]. rewrite last_cons.
    split; [lia|]. constructor; assumption.
Qed.

(** What the loop needs of the ends still to walk: they start at the offset
    or above, do not decrease and stay within the buffer. *)
Lemma walk_from_precondition (flatCoords : list float64) ends :
  Sorted Z.le ends ->
  Forall (fun e => 0 <= e) ends ->
  last ends 0 <= len flatCoords ->
  HdRel Z.le 0 ends /\ Forall (fun e => e <= len flatCoords) ends.
Proof.
  intros S F L.
  assert (H : HdRel Z.le 0 ends) by (destruct F; constructor; assumption).
  split; [exact H|].
  destruct (Sorted_le_last ends 0 S H) as [_ B].
  eapply Forall_impl; [|exact B]. cbv beta. intros e He. lia.
Qed.

Lemma slices_taken_in_bounds (flatCoords : list float64) ends : forall offset,
  0 <= offset ->
  HdRel Z.le offset ends ->
  Sorted Z.le ends ->
  Forall (fun e => e <= len flatCoords) ends ->
  Forall (in_bounds flatCoords) (slices_taken offset ends).
Proof.
  induction ends as [|e ends IH]; intros offset H0 H S F; cbn [slices_taken]; constructor.
  - inversion H; subst. inversion F; subst. unfold in_bounds. cbn [fst snd]. lia.
  - inversion H; subst. inversion S; subst. inversion F; subst.
    apply IH; (assumption || lia).
Qed.

(** With every slice within bounds, the loop returns or, for the stride zero,
    stops on the division of [WriteFlatCoords1]. *)
Lemma WriteFlatCoords2_loop_no_panic order flatCoords stride ends : forall offset w,
  0 <= offset ->
  HdRel Z.le offset ends ->
  Sorted Z.le ends ->
  Forall (fun e => e <= len flatCoords) ends ->
  (exists err w',
     WriteFlatCoords2_loop order flatCoords stride offset ends w = Done (err, w')) \/
  (stride = 0 /\
   WriteFlatCoords2_loop order flatCoords stride offset ends w = Panicked PanicDivideByZero).
Proof.
  induction ends as [|e ends IH]; intros offset w H0 H S F.
  - left. do 2 eexists. reflexivity.
  - inversion H; subst. inversion S; subst. inversion F; subst.
    cbn [WriteFlatCoords2_loop].
    run_with ltac:(apply slice_ok; lia).
    set (coords := firstn (Z.to_nat (e - offset)) (skipn (Z.to_nat offset) flatCoords)).
    destruct (WriteFlatCoords1 order coords stride w) as [[[e1|] w1]|p] eqn:E.
    + left. run_with ltac:(exact E). do 2 eexists. reflexivity.
    + run_with ltac:(exact E). apply IH; (assumption || lia).
    + apply WriteFlatCoords1_panics in E as E'. destruct E' as [-> ->].
      right. split; [reflexivity|]. now rewrite (bind_Panicked _ _ _ _ E).
Qed.

(** C10, as the code has it.  When the ends do not decrease, are not
    negative and the last of them is at most [len(flatCoords)], every slice
    [flatCoords[offset:end]] that [WriteFlatCoords2] takes while walking the
    ends is within bounds: the call never panics on a slice, whatever the
    stride and the stream, and for any stride other than zero it does not
    panic at all, it returns (nil or the error of the stream). *)
Theorem WriteFlatCoords2_slices_in_bounds order flatCoords ends stride w :
  Sorted Z.le ends ->
  Forall (fun e => 0 <= e) ends ->
  last ends 0 <= len flatCoords ->
  Forall (in_bounds flatCoords) (slices_taken 0 ends) /\
  WriteFlatCoords2 order flatCoords ends stride w <> Panicked PanicSliceBounds /\
  (stride <> 0 ->
   exists err w', WriteFlatCoords2 order flatCoords ends stride w = Done (err, w')).
Proof.
  intros S F L.
  destruct (walk_from_precondition flatCoords ends S F L) as [H B].
  split; [apply slices_taken_in_bounds; (assumption || lia)|].
  assert (T : (exists err w',
                 WriteFlatCoords2 order flatCoords ends stride w = Done (err, w')) \/
              (stride = 0 /\
               WriteFlatCoords2 order flatCoords ends stride w = Panicked PanicDivideByZero)).
  { unfold WriteFlatCoords2.
    destruct (binary_Write_uint32 order (uint32 (len ends)) w) as [[[e1|] w1]|p] eqn:E.
    - left. run_with ltac:(exact E). do 2 eexists. reflexivity.
    - run_with ltac:(exact E).
      apply WriteFlatCoords2_loop_no_panic; (assumption || lia).
    - unfold binary_Write_uint32, io_Write in E.
      destruct (room w); [destruct (_ <=? _)|]; discriminate. }
  split.
  - destruct T as [(err & w' & ->) | [_ ->]]; discriminate.
  - intros Hs. destruct T as [T | [Z _]]; [exact T | contradiction].
Qed.

(** The ends 6 and 10 over ten scalars, on a stream with room for twenty
    bytes: the slices [0:6] and [6:10], and the call returns the error of the
    stream. *)
Lemma WriteFlatCoords2_slices_in_bounds_witness :
  Forall (in_bounds [f64 0; f64 0; f64 1; f64 0; f64 1; f64 1; f64 2; f64 2; f64 3; f64 2])
         [(0, 6); (6, 10)] /\
  exists err w',
    WriteFlatCoords2 BigEndian
      [f64 0; f64 0; f64 1; f64 0; f64 1; f64 1; f64 2; f64 2; f64 3; f64 2] [6; 10] 2
      (mkWriter [] (Some 20))
    = Done (err, w').
Proof.
  assert (S : Sorted Z.le [6; 10]) by (repeat constructor; discriminate).
  assert (F : Forall (fun e => 0 <= e) [6; 10]) by (repeat constructor; discriminate).
  assert (L : last [6; 10] 0
              <= len [f64 0; f64 0; f64 1; f64 0; f64 1; f64 1; f64 2; f64 2; f64 3; f64 2])
    by discriminate.
  assert (Hs : 2 <> 0) by discriminate.
  pose proof (WriteFlatCoords2_slices_in_bounds BigEndian
                [f64 0; f64 0; f64 1; f64 0; f64 1; f64 1; f64 2; f64 2; f64 3; f64 2]
                [6; 10] 2 (mkWriter [] (Some 20)) S F L) as (B & _ & T).
  split; [exact B | exact (T Hs)].
Defined.

(** C10 fails for the stride zero: the ends [2] over two scalars do not
    decrease, are not negative and stay within the buffer, the slice [0:2] is
    within bounds, and [WriteFlatCoords2] panics all the same, on the division
    [len(coords)/stride] of [WriteFlatCoords1]. *)
Lemma WriteFlatCoords2_slices_in_bounds_counterexample :
  Sorted Z.le [2] /\
  Forall (fun e => 0 <= e) [2] /\
  last [2] 0 <= len [f64 1; f64 2] /\
  WriteFlatCoords2 BigEndian [f64 1; f64 2] [2] 0 NewBuffer = Panicked PanicDivideByZero /\
  ~ (exists err w',
       WriteFlatCoords2 BigEndian [f64 1; f64 2] [2] 0 NewBuffer = Done (err, w')).
Proof.
  split; [repeat constructor|]. split; [repeat constructor; discriminate|].
  split; [discriminate|]. split; [reflexivity|].
  intros (err & w' & H). discriminate H.
Qed.

(** With the stride zero, the division of [WriteFlatCoords1] panics. *)
Example WriteFlatCoords2_stride_zero :
  WriteFlatCoords2 BigEndian [] [0] 0 NewBuffer = Panicked PanicDivideByZero.
Proof. reflexivity. Qed.

(** * Further properties of the codec *)

(** ** Bytes and values *)

Lemma Uint_range order b : 0 <= Uint order b < 2 ^ (8 * Z.of_nat (length b)).
Proof.
  destruct order; cbn [Uint].
  - rewrite <- (length_rev b). apply le_combine_bound.
  - apply le_combine_bound.
Qed.

Lemma PutUint_Uint size order b :
  length b = size -> PutUint size order (Uint order b) = b.
Proof.
  intros <-. destruct order; cbn [PutUint Uint].
  - rewrite <- (length_rev b), split_le_combine. apply rev_involutive.
  - apply split_le_combine.
Qed.

Lemma Float64bits_frombits z : 0 <= z < 2 ^ 64 -> Float64bits (Float64frombits z) = z.
Proof.
  intros Hz. unfold Float64bits, Float64frombits.
  rewrite word.unsigned_of_Z. unfold word.wrap. now apply Z.mod_small.
Qed.

Lemma length_decode_float64s order k : forall bs,
  length (decode_float64s order k bs) = k.
Proof.
  induction k as [|k IH]; intros bs; cbn [decode_float64s length]; [reflexivity|].
  now rewrite IH.
Qed.

(** Encoding the scalars decoded from [8 * k] bytes gives the bytes back. *)
Lemma encode_decode_float64s order k : forall bs,
  length bs = (8 * k)%nat ->
  encode_float64s order (decode_float64s order k bs) = bs.
Proof.
  induction k as [|k IH]; intros bs L.
  - destruct bs; [reflexivity | cbn in L; lia].
  - cbn [decode_float64s]. unfold encode_float64s in *. cbn [flat_map].
    assert (L8 : length (firstn 8 bs) = 8%nat) by (rewrite length_firstn; lia).
    rewrite IH by (rewrite length_skipn; lia).
    rewrite Float64bits_frombits.
    + unfold PutUint64, Uint64. rewrite PutUint_Uint by exact L8. apply firstn_skipn.
    + pose proof (Uint_range order (firstn 8 bs)) as B. rewrite L8 in B. exact B.
Qed.

(** ** What a read takes off the stream *)

Lemma io_ReadFull_Done size r :
  exists res r', io_ReadFull size r = Done (res, r').
Proof.
  unfold io_ReadFull.
  destruct (size <=? 0); [eauto|]. destruct (size <=? len (data r)); eauto.
Qed.

(** A read that fills the buffer takes exactly [size] bytes. *)
Lemma io_ReadFull_inv size r bs r' :
  io_ReadFull size r = Done ((bs, None), r') ->
  data r = bs ++ data r' /\ len bs = Z.max 0 size /\
  fault r' = fault r /\ requests r' = note size (requests r).
Proof.
  unfold io_ReadFull, note. destruct (size <=? 0) eqn:E0.
  - intros H. injection H as <- <-. apply Z.leb_le in E0.
    repeat split. unfold len. cbn. lia.
  - destruct (size <=? len (data r)) eqn:E1; [|discriminate].
    intros H. injection H as <- <-. cbn [data fault requests].
    apply Z.leb_gt in E0. apply Z.leb_le in E1. unfold len in *.
    repeat split.
    + symmetry. apply firstn_skipn.
    + rewrite length_firstn. lia.
Qed.

(** A read that fails found fewer than [size] bytes, and reports the end of
    the stream. *)
Lemma io_ReadFull_inv_error size r bs e r' :
  io_ReadFull size r = Done ((bs, Some e), r') ->
  len (data r) < size /\ e = short_read_error r.
Proof.
  unfold io_ReadFull, short_read_error. destruct (size <=? 0); [discriminate|].
  destruct (size <=? len (data r)) eqn:E1; [discriminate|].
  intros H. injection H as <- <- <-. apply Z.leb_gt in E1. split; [exact E1 | reflexivity].
Qed.


Lemma binary_Read_uint32_bytes order r n r1 :
  binary_Read_uint32 order r = Done ((n, None), r1) ->
  data r = PutUint32 order n ++ data r1 /\ fault r1 = fault r.
Proof.
  intros H. pose proof (binary_Read_uint32_inv _ _ _ _ H) as (_ & -> & ->).
  unfold binary_Read_uint32, bind, io_ReadFull in H. cbn [Z.leb Z.compare] in H.
  destruct (4 <=? len (data r)) eqn:E; [|discriminate]. apply Z.leb_le in E.
  cbn [data fault]. split; [|reflexivity].
  unfold PutUint32, Uint32. rewrite PutUint_Uint.
  - symmetry. apply firstn_skipn.
  - rewrite length_firstn. unfold len in E. lia.
Qed.

Lemma binary_Read_float64s_inv order buf r s r' :
  binary_Read_float64s order buf r = Done ((s, None), r') ->
  data r = encode_float64s order s ++ data r' /\ length s = length buf /\
  fault r' = fault r /\ requests r' = note (8 * len buf) (requests r).
Proof.
  unfold binary_Read_float64s, bind. intros H.
  destruct (io_ReadFull (8 * len buf) r) as [[[bs [e|]] r1]|p] eqn:E; try discriminate.
  injection H as <- <-.
  apply io_ReadFull_inv in E as (D & L & F & Q).
  pose proof (len_nonneg buf).
  rewrite encode_decode_float64s by (unfold len in *; lia).
  rewrite length_decode_float64s. repeat split; assumption.
Qed.

(** ** Level 1: what a read returns *)

Lemma binary_Read_uint32_Done order r :
  exists res r1, binary_Read_uint32 order r = Done (res, r1).
Proof.
  unfold binary_Read_uint32, bind.
  destruct (io_ReadFull_Done 4 r) as ([bs [e|]] & r1 & ->);
    do 2 eexists; reflexivity.
Qed.

Lemma binary_Read_uint32_error order r n e r1 :
  binary_Read_uint32 order r = Done ((n, Some e), r1) ->
  len (data r) < 4 /\ e = short_read_error r.
Proof.
  unfold binary_Read_uint32, bind. intros H.
  destruct (io_ReadFull 4 r) as [[[bs [e1|]] r2]|p] eqn:E; try discriminate.
  injection H as _ <- _. now apply io_ReadFull_inv_error in E.
Qed.

(** A Level-1 read that returns without error has read a count [n] within the
    limit and then the [int(n)*stride] scalars it returns. *)
Lemma ReadFlatCoords1_inv limits order stride r fc r' :
  ReadFlatCoords1 limits order stride r = Done ((fc, None), r') ->
  exists n r1,
    binary_Read_uint32 order r = Done ((n, None), r1) /\
    n <= limit limits 1 /\
    0 <= int_mul n stride /\
    len fc = int_mul n stride /\
    data r1 = encode_float64s order fc ++ data r' /\
    fault r' = fault r /\
    requests r' = note (8 * len fc) (4 :: requests r).
Proof.
  unfold ReadFlatCoords1. intros H.
  destruct (binary_Read_uint32 order r) as [[[n [e|]] r1]|p] eqn:E;
    unfold bind at 1 in H; rewrite E in H; try discriminate.
  destruct (n >? limit limits 1) eqn:G; [discriminate|].
  pose proof (Zgt_cases n (limit limits 1)) as C. rewrite G in C.
  unfold make_float64s, bind at 1 in H.
  destruct (int_mul n stride <? 0) eqn:N; [discriminate|]. apply Z.ltb_ge in N.
  unfold ret at 1 in H.
  set (buf := repeat (Float64frombits 0) (Z.to_nat (int_mul n stride))) in H.
  assert (Lb : len buf = int_mul n stride)
    by (unfold buf, len; rewrite repeat_length; lia).
  unfold bind in H.
  destruct (binary_Read_float64s order buf r1) as [[[s [e|]] r2]|p] eqn:R; try discriminate.
  injection H as <- <-.
  apply binary_Read_float64s_inv in R as (D & L & F & Q).
  pose proof (binary_Read_uint32_inv _ _ _ _ E) as (_ & _ & Hr1).
  assert (Ls : len s = int_mul n stride) by (unfold len in *; lia).
  exists n, r1. repeat split; try assumption; try lia.
  - rewrite F, Hr1. reflexivity.
  - rewrite Q, Ls, Lb, Hr1. reflexivity.
Qed.

Lemma int_mul_small n stride :
  0 <= n < 2 ^ 32 -> 0 <= stride <= 2 ^ 31 -> int_mul n stride = n * stride.
Proof. intros Hn Hs. unfold int_mul. apply int_wrap_small. nia. Qed.

(** X1. Reading back, Level 1: when [ReadFlatCoords1] returns without
    error, for a stride from 1 to 2^31, the scalars it returns are a whole
    number of tuples, and [WriteFlatCoords1] of these scalars writes, byte for
    byte, what the read took off the stream. *)
Theorem ReadFlatCoords1_then_write limits order stride r flatCoords r' :
  0 < stride <= 2 ^ 31 ->
  ReadFlatCoords1 limits order stride r = Done ((flatCoords, None), r') ->
  exists bs,
    written (WriteFlatCoords1 order flatCoords stride) = Some bs /\
    data r = bs ++ data r' /\
    len flatCoords mod stride = 0 /\
    len bs = 4 + 8 * len flatCoords.
Proof.
  intros Hs H.
  apply ReadFlatCoords1_inv in H as (n & r1 & E & Hl & H0 & L & D & _).
  pose proof (binary_Read_uint32_inv _ _ _ _ E) as (Hn & _).
  apply binary_Read_uint32_bytes in E as [Dn _].
  rewrite int_mul_small in L by lia.
  exists (Level1_block order n flatCoords). split; [|split; [|split]].
  - rewrite written_WriteFlatCoords1 by lia.
    rewrite L, Z.quot_mul, uint32_small by lia. reflexivity.
  - rewrite Dn, D. unfold Level1_block. now rewrite app_assoc.
  - rewrite L. apply Z_mod_mult.
  - unfold Level1_block. rewrite len_app, len_encode_float64s.
    unfold len at 1, PutUint32. rewrite length_PutUint. lia.
Qed.

Lemma ReadFlatCoords1_then_write_witness :
  exists bs,
    written (WriteFlatCoords1 LittleEndian [f64 1; f64 2] 2) = Some bs /\
    Level1_block LittleEndian 1 [f64 1; f64 2] ++ bytes_of [7; 7] = bs ++ bytes_of [7; 7] /\
    len [f64 1; f64 2] mod 2 = 0 /\
    len bs = 4 + 8 * len [f64 1; f64 2].
Proof.
  assert (Hs : 0 < 2 <= 2 ^ 31) by (split; [reflexivity | discriminate]).
  refine (ReadFlatCoords1_then_write MaxGeometryElements LittleEndian 2
            (NewReader (Level1_block LittleEndian 1 [f64 1; f64 2] ++ bytes_of [7; 7]))
            [f64 1; f64 2] (mkReader (bytes_of [7; 7]) io_EOF [16; 4]) Hs _).
  vm_compute. reflexivity.
Defined.


(** ** Level 1: the steps of a read *)

Lemma io_ReadFull_requests size r res r' :
  io_ReadFull size r = Done (res, r') -> requests r' = note size (requests r).
Proof.
  unfold io_ReadFull, note. destruct (size <=? 0).
  - intros H. now injection H as _ <-.
  - destruct (size <=? len (data r)); intros H; now injection H as _ <-.
Qed.

(** [binary.Read] into a slice asks for all its bytes at once; when it fails
    the slice is left as it was. *)
Lemma binary_Read_float64s_outcome order buf r res r' :
  binary_Read_float64s order buf r = Done (res, r') ->
  requests r' = note (8 * len buf) (requests r) /\
  length (fst res) = length buf /\
  (forall e, snd res = Some e -> len (data r) < 8 * len buf /\ e = short_read_error r).
Proof.
  unfold binary_Read_float64s, bind. intros H.
  destruct (io_ReadFull (8 * len buf) r) as [[[bs [e|]] r1]|p] eqn:E; try discriminate;
    injection H as <- <-; pose proof (io_ReadFull_requests _ _ _ _ E) as Q; cbn [fst snd].
  - split; [exact Q|]. split; [reflexivity|].
    intros e' [= <-]. now apply io_ReadFull_inv_error in E.
  - split; [exact Q|]. split; [apply length_decode_float64s | discriminate].
Qed.


Lemma ReadFlatCoords1_count_error limits order stride r n e r1 :
  binary_Read_uint32 order r = Done ((n, Some e), r1) ->
  ReadFlatCoords1 limits order stride r = Done (([], Some e), r1).
Proof. intros E. unfold ReadFlatCoords1. now run_with ltac:(exact E). Qed.

Lemma ReadFlatCoords1_count_too_large limits order stride r n r1 :
  binary_Read_uint32 order r = Done ((n, None), r1) ->
  n > limit limits 1 ->
  ReadFlatCoords1 limits order stride r
  = Done (([], Some (ErrGeometryTooLarge 1 n (limit limits 1))), r1).
Proof.
  intros E G. unfold ReadFlatCoords1. run_with ltac:(exact E).
  apply Z.gt_lt, Z.gtb_lt in G. now rewrite G.
Qed.

(** With a count within the limit, the read goes on to the payload. *)
Lemma ReadFlatCoords1_payload limits order stride r n r1 :
  binary_Read_uint32 order r = Done ((n, None), r1) ->
  n <= limit limits 1 ->
  ReadFlatCoords1 limits order stride r
  = if int_mul n stride <? 0 then Panicked PanicMakesliceLen
    else match binary_Read_float64s order
                 (repeat (Float64frombits 0) (Z.to_nat (int_mul n stride))) r1 with
         | Done ((s, None), r') => Done ((s, None), r')
         | Done ((_, Some e), r') => Done (([], Some e), r')
         | Panicked p => Panicked p
         end.
Proof.
  intros E G. unfold ReadFlatCoords1. run_with ltac:(exact E).
  destruct (n >? limit limits 1) eqn:G'; [apply Z.gtb_lt in G'; lia|].
  unfold make_float64s. destruct (int_mul n stride <? 0); [reflexivity|].
  unfold bind at 1, ret at 1. unfold bind.
  destruct (binary_Read_float64s _ _ r1) as [[[s [e|]] r2]|p]; reflexivity.
Qed.

Lemma len_repeat {A : Type} (x : A) n : 0 <= n -> len (repeat x (Z.to_nat n)) = n.
Proof. intros H. unfold len. rewrite repeat_length. lia. Qed.

(** Whatever a Level-1 read returns, it has asked for the count and for a
    payload of [k] scalars, where [k] is zero or [n*stride] for a count [n]
    within the limit, and it returns [k] scalars at most. *)
Lemma ReadFlatCoords1_requests limits order stride r res r' :
  BoundsPolicy_ok limits ->
  0 <= stride <= 2 ^ 31 ->
  ReadFlatCoords1 limits order stride r = Done (res, r') ->
  exists k,
    0 <= k <= limit limits 1 * stride /\
    (0 < k -> exists n, 0 < n <= limit limits 1 /\ k = n * stride) /\
    requests r' = note (8 * k) (4 :: requests r) /\
    len (fst res) <= k.
Proof.
  intros Hok Hs H. pose proof (limit_range limits 1 Hok) as Hl.
  assert (K0 : 0 <= 0 <= limit limits 1 * stride) by nia.
  assert (N0 : 0 < 0 -> exists n, 0 < n <= limit limits 1 /\ 0 = n * stride) by lia.
  assert (L0 : len (@nil float64) <= 0) by (change (len (@nil float64)) with 0; lia).
  destruct (binary_Read_uint32_Done order r) as ([n [e|]] & r1 & E).
  - rewrite (ReadFlatCoords1_count_error _ _ _ _ _ _ _ E) in H. injection H as <- <-.
    exists 0. repeat split; try assumption; try lia.
    unfold binary_Read_uint32, bind in E.
    destruct (io_ReadFull 4 r) as [[[bs [e1|]] r2]|p] eqn:R; try discriminate.
    injection E as _ _ <-. now apply io_ReadFull_requests in R.
  - pose proof (binary_Read_uint32_inv _ _ _ _ E) as (Hn & _ & Hr1).
    destruct (Z_gt_le_dec n (limit limits 1)) as [G | G].
    + rewrite (ReadFlatCoords1_count_too_large _ _ _ _ _ _ E G) in H.
      injection H as <- <-. exists 0. repeat split; try assumption; try lia.
      now rewrite Hr1.
    + rewrite (ReadFlatCoords1_payload _ _ _ _ _ _ E G) in H.
      rewrite int_mul_small in H by lia.
      destruct (n * stride <? 0) eqn:N; [discriminate|]. apply Z.ltb_ge in N.
      set (buf := repeat (Float64frombits 0) (Z.to_nat (n * stride))) in H.
      assert (Lb : len buf = n * stride) by (apply len_repeat; lia).
      exists (n * stride).
      assert (Hk : 0 < n * stride -> exists m, 0 < m <= limit limits 1 /\ n * stride = m * stride)
        by (intros P; exists n; split; [nia | reflexivity]).
      destruct (binary_Read_float64s order buf r1) as [[[s [e|]] r2]|p] eqn:R;
        try discriminate; injection H as <- <-;
        apply binary_Read_float64s_outcome in R as (Q & L & _); cbn [fst] in *;
        (split; [nia|]); (split; [exact Hk|]);
        (split; [rewrite Q, Lb, Hr1; reflexivity|]).
      * change (len (@nil float64)) with 0. lia.
      * unfold len in *. lia.
Qed.

(** X2. The bound of Level 1: whatever the stream holds, for a stride from 0
    to 2^31, [ReadFlatCoords1] asks the stream for the four bytes of the count
    and then, at most once, for a payload of [8*n*stride] bytes with
    [0 < n <= limit[1]]; what it returns holds [limit[1]*stride] scalars at
    most. *)
Theorem ReadFlatCoords1_bounded limits order stride r res r' :
  BoundsPolicy_ok limits ->
  0 <= stride <= 2 ^ 31 ->
  ReadFlatCoords1 limits order stride r = Done (res, r') ->
  len (fst res) <= limit limits 1 * stride /\
  (requests r' = 4 :: requests r \/
   exists n, 0 < n <= limit limits 1 /\
             requests r' = 8 * (n * stride) :: 4 :: requests r).
Proof.
  intros Hok Hs H.
  destruct (ReadFlatCoords1_requests _ _ _ _ _ _ Hok Hs H) as (k & Hk & Hn & Q & L).
  split; [lia|]. rewrite Q. unfold note.
  destruct (8 * k <=? 0) eqn:Z8; [now left|]. apply Z.leb_gt in Z8.
  destruct Hn as (n & Hn & ->); [lia|]. right. exists n. split; [exact Hn | reflexivity].
Qed.

(** A stream that announces 3 coordinates of stride 2 and holds one scalar. *)
Lemma ReadFlatCoords1_bounded_witness :
  len (@nil float64) <= limit MaxGeometryElements 1 * 2 /\
  ([48; 4] = [4] \/
   exists n, 0 < n <= limit MaxGeometryElements 1 /\ [48; 4] = [8 * (n * 2); 4]).
Proof.
  assert (Hs : 0 <= 2 <= 2 ^ 31) by (split; discriminate).
  refine (ReadFlatCoords1_bounded MaxGeometryElements BigEndian 2
            (NewReader (PutUint32 BigEndian 3 ++ PutUint64 BigEndian 0))
            ([], Some io_ErrUnexpectedEOF) (mkReader [] io_EOF [48; 4])
            MaxGeometryElements_ok Hs _).
  vm_compute. reflexivity.
Defined.




(** X4. An empty sequence, Level 1: once the count is read and is within the
    limit, a count of zero (or a stride of zero) makes [ReadFlatCoords1]
    return no scalars and no error without asking the stream for anything
    more, so also when the stream ends right after the count. *)
Theorem ReadFlatCoords1_empty limits order stride r n r1 :
  binary_Read_uint32 order r = Done ((n, None), r1) ->
  n <= limit limits 1 ->
  n = 0 \/ stride = 0 ->
  ReadFlatCoords1 limits order stride r = Done (([], None), r1).
Proof.
  intros E G Z.
  rewrite (ReadFlatCoords1_payload _ _ _ _ _ _ E G).
  assert (P : int_mul n stride = 0).
  { unfold int_mul. destruct Z as [-> | ->]; [|rewrite Z.mul_0_r]; reflexivity. }
  rewrite P. reflexivity.
Qed.

Lemma ReadFlatCoords1_empty_witness :
  ReadFlatCoords1 MaxGeometryElements BigEndian 3 (NewReader (bytes_of [0; 0; 0; 0]))
  = Done (([], None), mkReader [] io_EOF [4]).
Proof.
  apply (ReadFlatCoords1_empty MaxGeometryElements BigEndian 3 _ 0).
  - vm_compute. reflexivity.
  - discriminate.
  - left. reflexivity.
Defined.

(** X5. A negative stride, Level 1: with a count of one or more within the
    limit and a stride from -2^31 to -1, [ReadFlatCoords1] panics in [make]
    (the length [int(n)*stride] is negative) instead of returning an error. *)
Theorem ReadFlatCoords1_negative_stride limits order stride r n r1 :
  binary_Read_uint32 order r = Done ((n, None), r1) ->
  0 < n <= limit limits 1 ->
  - 2 ^ 31 <= stride < 0 ->
  ReadFlatCoords1 limits order stride r = Panicked PanicMakesliceLen.
Proof.
  intros E [Hn G] Hs.
  pose proof (binary_Read_uint32_inv _ _ _ _ E) as (Hr & _).
  rewrite (ReadFlatCoords1_payload _ _ _ _ _ _ E G).
  unfold int_mul. rewrite int_wrap_small by nia.
  destruct (n * stride <? 0) eqn:N; [reflexivity | apply Z.ltb_ge in N; nia].
Qed.

Lemma ReadFlatCoords1_negative_stride_witness :
  ReadFlatCoords1 MaxGeometryElements BigEndian (-2) (NewReader (bytes_of [0; 0; 0; 1]))
  = Panicked PanicMakesliceLen.
Proof.
  apply (ReadFlatCoords1_negative_stride MaxGeometryElements BigEndian (-2) _ 1
           (mkReader [] io_EOF [4])).
  - vm_compute. reflexivity.
  - split; [reflexivity | discriminate].
  - split; [discriminate | reflexivity].
Defined.

(** ** Level 0 *)

Lemma ReadFlatCoords0_ok order coord rest flt reqs :
  ReadFlatCoords0 order (len coord) (mkReader (encode_float64s order coord ++ rest) flt reqs)
  = Done ((coord, None), mkReader rest flt (note (8 * len coord) reqs)).
Proof.
  unfold ReadFlatCoords0.
  run_with ltac:(apply make_float64s_ok; apply len_nonneg).
  run_with ltac:(apply binary_Read_float64s_ok; rewrite repeat_length;
                 unfold len; apply Nat2Z.id).
  reflexivity.
Qed.

(** X6. Write then read, Level 0: [WriteFlatCoords0] writes the eight bytes
    of every scalar and nothing else, and [ReadFlatCoords0] with the stride
    [len(coord)] reads them back as the same scalars, bit for bit, leaving
    what follows in the stream. *)
Theorem Level0_roundtrip order coord rest flt reqs :
  exists bs,
    written (WriteFlatCoords0 order coord) = Some bs /\
    len bs = 8 * len coord /\
    ReadFlatCoords0 order (len coord) (mkReader (bs ++ rest) flt reqs)
    = Done ((coord, None), mkReader rest flt (note (8 * len coord) reqs)).
Proof.
  exists (encode_float64s order coord). split; [reflexivity|].
  split; [apply len_encode_float64s | apply ReadFlatCoords0_ok].
Qed.



(** ** Level 1 as a count and tuples of Level 0 *)

Lemma ReadFlatCoords0_times_ok order stride k : forall coords rest flt reqs,
  0 <= stride ->
  len coords = Z.of_nat k * stride ->
  exists reqs',
    ReadFlatCoords0_times order stride k
      (mkReader (encode_float64s order coords ++ rest) flt reqs)
    = Done ((coords, None), mkReader rest flt reqs').
Proof.
  induction k as [|k IH]; intros coords rest flt reqs Hs L.
  - rewrite (len_nil_inv coords) by lia. exists reqs. reflexivity.
  - set (a := firstn (Z.to_nat stride) coords).
    set (b := skipn (Z.to_nat stride) coords).
    assert (La : len a = stride)
      by (unfold a, len in *; rewrite length_firstn; nia).
    assert (Lb : len b = Z.of_nat k * stride)
      by (unfold b, len in *; rewrite length_skipn; nia).
    assert (E : coords = a ++ b) by (symmetry; apply firstn_skipn).
    destruct (IH b rest flt (note (8 * len a) reqs) Hs Lb) as [reqs' R].
    exists reqs'. cbn [ReadFlatCoords0_times].
    rewrite E, encode_float64s_app, <- app_assoc. rewrite <- La at 1.
    run_with ltac:(apply ReadFlatCoords0_ok).
    run_with ltac:(exact R). reflexivity.
Qed.

(** X8. Level 1 is a count and then tuples of Level 0: when
    [ReadFlatCoords1] returns without error, for a stride from 0 to 2^31,
    reading the count and then calling [ReadFlatCoords0] as many times as the
    count says returns the same scalars and leaves the same bytes in the
    stream. *)
Theorem ReadFlatCoords1_as_tuples limits order stride r flatCoords r' :
  0 <= stride <= 2 ^ 31 ->
  ReadFlatCoords1 limits order stride r = Done ((flatCoords, None), r') ->
  exists n r1 r'',
    binary_Read_uint32 order r = Done ((n, None), r1) /\
    ReadFlatCoords0_times order stride (Z.to_nat n) r1 = Done ((flatCoords, None), r'') /\
    data r'' = data r'.
Proof.
  intros Hs H.
  apply ReadFlatCoords1_inv in H as (n & r1 & E & _ & _ & L & D & _).
  pose proof (binary_Read_uint32_inv _ _ _ _ E) as (Hn & _).
  rewrite int_mul_small in L by lia.
  destruct r1 as [d f q]. cbn [data] in D. subst d.
  destruct (ReadFlatCoords0_times_ok order stride (Z.to_nat n) flatCoords (data r') f q)
    as [reqs' R]; [lia | lia |].
  exists n, (mkReader (encode_float64s order flatCoords ++ data r') f q),
         (mkReader (data r') f reqs').
  split; [exact E|]. split; [exact R | reflexivity].
Qed.

Lemma ReadFlatCoords1_as_tuples_witness :
  exists n r1 r'',
    binary_Read_uint32 BigEndian
      (NewReader (Level1_block BigEndian 2 [f64 1; f64 2; f64 3; f64 4]))
    = Done ((n, None), r1) /\
    ReadFlatCoords0_times BigEndian 2 (Z.to_nat n) r1
    = Done (([f64 1; f64 2; f64 3; f64 4], None), r'') /\
    data r'' = data (mkReader [] io_EOF [32; 4]).
Proof.
  assert (Hs : 0 <= 2 <= 2 ^ 31) by (split; discriminate).
  refine (ReadFlatCoords1_as_tuples MaxGeometryElements BigEndian 2 _ _ _ Hs _).
  vm_compute. reflexivity.
Defined.

(** ** Level 2: what a read takes off the stream *)

(** The bytes that successive Level-1 reads take are the Level-1 blocks of
    what they return. *)
Lemma Level1_reads_bytes limits order stride r blocks r' :
  0 < stride <= 2 ^ 31 ->
  Level1_reads limits order stride r blocks r' ->
  data r = Level1_blocks order stride blocks ++ data r'.
Proof.
  intros Hs. induction 1 as [r | r fc r1 blocks r2 E R IH]; [reflexivity|].
  apply ReadFlatCoords1_inv in E as (n & r0 & E & _ & _ & L & D & _).
  pose proof (binary_Read_uint32_inv _ _ _ _ E) as (Hn & _).
  apply binary_Read_uint32_bytes in E as [Dn _].
  rewrite int_mul_small in L by lia.
  unfold Level1_blocks in *. cbn [flat_map].
  rewrite L, Z.quot_mul, uint32_small by lia.
  unfold Level1_block. rewrite Dn, D, IH, <- !app_assoc. reflexivity.
Qed.

Lemma partition_ends_from blocks : forall offset,
  partition_of offset (ends_from offset blocks) (offset + len (concat blocks)).
Proof.
  induction blocks as [|b blocks IH]; intros offset; cbn [ends_from concat partition_of].
  - change (len (@nil float64)) with 0. lia.
  - pose proof (len_nonneg b). split; [lia|].
    rewrite len_app, Z.add_assoc. apply IH.
Qed.

(** Cutting the sub-arrays put together at their ends gives them back. *)
Lemma segments_ends_from blocks : forall pre,
  segments (pre ++ concat blocks) (len pre) (ends_from (len pre) blocks) = blocks.
Proof.
  induction blocks as [|b blocks IH]; intros pre; cbn [ends_from concat segments];
    [reflexivity|].
  f_equal.
  - replace (len pre + len b - len pre) with (len b) by lia.
    unfold len. rewrite !Nat2Z.id, skipn_exact by reflexivity.
    apply firstn_exact. reflexivity.
  - rewrite <- len_app, app_assoc. apply IH.
Qed.

Lemma len_Level1_blocks order stride blocks :
  len (Level1_blocks order stride blocks) = 4 * len blocks + 8 * len (concat blocks).
Proof.
  induction blocks as [|b blocks IH]; [reflexivity|].
  unfold Level1_blocks in *. cbn [flat_map concat].
  rewrite !len_app, IH. unfold Level1_block.
  rewrite len_app, len_encode_float64s.
  unfold len at 1, PutUint32. rewrite length_PutUint.
  replace (len (b :: blocks)) with (1 + len blocks) by (unfold len; cbn [length]; lia).
  lia.
Qed.

(** X9. Reading back, Level 2: when [ReadFlatCoords2] returns without
    error, for a stride from 1 to 2^31, [WriteFlatCoords2] of the scalars and
    the ends it returns writes, byte for byte, what the read took off the
    stream: [4 + 4*len(ends) + 8*len(flatCoords)] bytes. *)
Theorem ReadFlatCoords2_then_write limits order stride r flatCoords ends r' :
  0 < stride <= 2 ^ 31 ->
  ReadFlatCoords2 limits order stride r = Done ((flatCoords, ends, None), r') ->
  exists bs,
    written (WriteFlatCoords2 order flatCoords ends stride) = Some bs /\
    data r = bs ++ data r' /\
    len bs = 4 + 4 * len ends + 8 * len flatCoords.
Proof.
  intros Hs H.
  apply ReadFlatCoords2_success in H as (n & r1 & blocks & E & _ & L & R & -> & ->).
  pose proof (binary_Read_uint32_inv _ _ _ _ E) as (Hn & _).
  apply binary_Read_uint32_bytes in E as [Dn _].
  apply (Level1_reads_bytes _ _ _ _ _ _ Hs) in R.
  pose proof (partition_ends_from blocks 0) as P. cbn [Z.add] in P.
  pose proof (segments_ends_from blocks []) as S. cbn [app] in S.
  change (len (@nil float64)) with 0 in S.
  assert (Le : len (ends_from 0 blocks) = n)
    by (unfold len in *; now rewrite length_ends_from).
  exists (PutUint32 order n ++ Level1_blocks order stride blocks).
  split; [|split].
  - rewrite written_WriteFlatCoords2 by (lia || exact P).
    rewrite S, Le, uint32_small by lia. reflexivity.
  - rewrite Dn, R, <- app_assoc. reflexivity.
  - rewrite len_app, len_Level1_blocks, Le.
    unfold len at 1, PutUint32. rewrite length_PutUint. lia.
Qed.

Lemma ReadFlatCoords2_then_write_witness :
  exists bs,
    written (WriteFlatCoords2 LittleEndian [f64 1; f64 2] [0; 2] 2) = Some bs /\
    PutUint32 LittleEndian 2 ++ Level1_block LittleEndian 0 []
      ++ Level1_block LittleEndian 1 [f64 1; f64 2] ++ bytes_of [9]
    = bs ++ bytes_of [9] /\
    len bs = 4 + 4 * len [0; 2] + 8 * len [f64 1; f64 2].
Proof.
  assert (Hs : 0 < 2 <= 2 ^ 31) by (split; [reflexivity | discriminate]).
  refine (ReadFlatCoords2_then_write MaxGeometryElements LittleEndian 2
            (NewReader (PutUint32 LittleEndian 2 ++ Level1_block LittleEndian 0 []
                          ++ Level1_block LittleEndian 1 [f64 1; f64 2] ++ bytes_of [9]))
            [f64 1; f64 2] [0; 2] (mkReader (bytes_of [9]) io_EOF [16; 4; 4; 4]) Hs _).
  vm_compute. reflexivity.
Defined.

(** ** Level 2: the bound *)

Lemma total_app a b : total (a ++ b) = total a + total b.
Proof.
  unfold total. induction a as [|x a IH]; cbn [app fold_right]; [reflexivity|].
  rewrite IH. lia.
Qed.

Lemma note_app size a b : note size (a ++ b) = note size a ++ b.
Proof. unfold note. destruct (size <=? 0); reflexivity. Qed.

Lemma total_note size a : 0 <= size -> total (note size a) = size + total a.
Proof.
  intros H. unfold note. destruct (size <=? 0) eqn:E; [|reflexivity].
  apply Z.leb_le in E. lia.
Qed.

(** What the loop of a Level-2 read asks of the stream and returns, whatever
    the stream holds. *)
Lemma ReadFlatCoords2_loop_requests limits order stride :
  BoundsPolicy_ok limits ->
  0 <= stride <= 2 ^ 31 ->
  forall iters acc ends r fc' ends' err r',
    ReadFlatCoords2_loop limits order stride iters acc ends r
    = Done ((fc', ends', err), r') ->
    len fc' <= len acc + Z.of_nat iters * (limit limits 1 * stride) /\
    len ends' <= len ends + Z.of_nat iters /\
    exists new,
      requests r' = new ++ requests r /\
      0 <= total new <= Z.of_nat iters * (4 + 8 * (limit limits 1 * stride)).
Proof.
  intros Hok Hs. pose proof (limit_range limits 1 Hok) as Hl.
  induction iters as [|iters IH]; intros acc ends r fc' ends' err r' H.
  - injection H as <- <- <- <-. split; [lia|]. split; [lia|].
    exists []. split; [reflexivity | cbn; lia].
  - rewrite ReadFlatCoords2_loop_S in H.
    destruct (ReadFlatCoords1 limits order stride r) as [[[x e] r1]|p] eqn:E;
      [|discriminate].
    destruct (ReadFlatCoords1_requests _ _ _ _ _ _ Hok Hs E) as (k & Hk & _ & Q & L).
    cbn [fst] in L.
    change (4 :: requests r) with ([4] ++ requests r) in Q. rewrite note_app in Q.
    assert (T : total (note (8 * k) [4]) = 8 * k + 4)
      by (rewrite total_note by lia; reflexivity).
    pose proof (len_nonneg acc). pose proof (len_nonneg ends).
    destruct e as [e|].
    + injection H as <- <- <- <-.
      change (len (@nil float64)) with 0. change (len (@nil Z)) with 0.
      split; [nia|]. split; [lia|].
      exists (note (8 * k) [4]). split; [exact Q | nia].
    + apply IH in H as (B1 & B2 & new & Q' & T').
      rewrite len_app in B1. rewrite len_app in B2.
      change (len [len (acc ++ x)]) with 1 in B2.
      split; [nia|]. split; [lia|].
      exists (new ++ note (8 * k) [4]).
      split; [rewrite Q', Q, app_assoc; reflexivity|].
      rewrite total_app, T. nia.
Qed.

(** X10. The bound of Level 2: whatever the stream holds and whatever
    [ReadFlatCoords2] returns, for a stride from 0 to 2^31, it has asked the
    stream for [4 + limit[2] * (4 + 8*limit[1]*stride)] bytes at most, all
    requests taken together, and it returns [limit[2]] ends and
    [limit[2]*limit[1]*stride] scalars at most. *)
Theorem ReadFlatCoords2_bounded limits order stride r flatCoords ends err r' :
  BoundsPolicy_ok limits ->
  0 <= stride <= 2 ^ 31 ->
  ReadFlatCoords2 limits order stride r = Done ((flatCoords, ends, err), r') ->
  len ends <= limit limits 2 /\
  len flatCoords <= limit limits 2 * (limit limits 1 * stride) /\
  exists new,
    requests r' = new ++ requests r /\
    total new <= 4 + limit limits 2 * (4 + 8 * (limit limits 1 * stride)).
Proof.
  intros Hok Hs H.
  pose proof (limit_range limits 1 Hok) as Hl1.
  pose proof (limit_range limits 2 Hok) as Hl2.
  assert (N : len (@nil float64) <= limit limits 2 * (limit limits 1 * stride))
    by (change (len (@nil float64)) with 0; nia).
  assert (N' : len (@nil Z) <= limit limits 2) by (change (len (@nil Z)) with 0; lia).
  assert (P1 : 0 <= limit limits 1 * stride) by nia.
  assert (P2 : 0 <= limit limits 2 * (4 + 8 * (limit limits 1 * stride))) by nia.
  assert (T4 : total [4] = 4) by reflexivity.
  unfold ReadFlatCoords2 in H.
  destruct (binary_Read_uint32_Done order r) as ([n [e|]] & r1 & E);
    unfold bind in H; rewrite E in H.
  - injection H as <- <- <- <-. split; [exact N'|]. split; [exact N|].
    exists [4]. split; [|lia].
    unfold binary_Read_uint32, bind in E.
    destruct (io_ReadFull 4 r) as [[[bs [e1|]] r2]|p] eqn:R; try discriminate.
    injection E as _ _ <-. now apply io_ReadFull_requests in R.
  - pose proof (binary_Read_uint32_inv _ _ _ _ E) as (Hn & _ & Hr1).
    destruct (n >? limit limits 2) eqn:G.
    + injection H as <- <- <- <-. split; [exact N'|]. split; [exact N|].
      exists [4]. split; [now rewrite Hr1 | lia].
    + pose proof (Zgt_cases n (limit limits 2)) as C. rewrite G in C.
      apply (ReadFlatCoords2_loop_requests _ _ _ Hok Hs) in H as (B1 & B2 & new & Q & T).
      change (len (@nil float64)) with 0 in B1. change (len (@nil Z)) with 0 in B2.
      rewrite Z2Nat.id in * by lia.
      split; [lia|]. split; [nia|].
      exists (new ++ [4]). split.
      * rewrite Q, Hr1, <- app_assoc. reflexivity.
      * rewrite total_app, T4. nia.
Qed.

(** A stream that announces two sub-arrays and ends in the middle of the
    second count. *)
Lemma ReadFlatCoords2_bounded_witness :
  len (@nil Z) <= limit MaxGeometryElements 2 /\
  len (@nil float64) <= limit MaxGeometryElements 2 * (limit MaxGeometryElements 1 * 2) /\
  exists new,
    [4; 16; 4; 4] = new ++ [] /\
    total new <= 4 + limit MaxGeometryElements 2 * (4 + 8 * (limit MaxGeometryElements 1 * 2)).
Proof.
  assert (Hs : 0 <= 2 <= 2 ^ 31) by (split; discriminate).
  refine (ReadFlatCoords2_bounded MaxGeometryElements BigEndian 2
            (NewReader (PutUint32 BigEndian 2 ++ Level1_block BigEndian 1 [f64 1; f64 2]
                          ++ bytes_of [0; 0]))
            [] [] (Some io_ErrUnexpectedEOF) (mkReader [] io_EOF [4; 16; 4; 4])
            MaxGeometryElements_ok Hs _).
  vm_compute. reflexivity.
Defined.

(** ** Level 2: what a write takes from the buffer *)

Lemma WriteFlatCoords2_loop_within order flatCoords stride ends : forall offset o m,
  stride <> 0 ->
  0 <= offset ->
  partition_of offset ends m ->
  m <= len flatCoords ->
  WriteFlatCoords2_loop order flatCoords stride offset ends (mkWriter o None)
  = Done (None, mkWriter (o ++ Level1_blocks order stride (segments flatCoords offset ends)) None).
Proof.
  induction ends as [|e ends IH]; intros offset o m Hs H0 P Hm.
  - cbn. now rewrite app_nil_r.
  - destruct P as [P1 P2]. pose proof (partition_of_le _ _ _ P2) as P3.
    cbn [WriteFlatCoords2_loop segments].
    run_with ltac:(apply slice_ok; lia).
    run_with ltac:(now apply WriteFlatCoords1_buffer).
    rewrite (IH e _ m) by (assumption || lia).
    unfold Level1_blocks. cbn [flat_map]. now rewrite <- app_assoc.
Qed.

(** The sub-arrays cut out of a buffer do not depend on what lies beyond the
    last end. *)
Lemma segments_app flatCoords extra ends : forall offset m,
  0 <= offset ->
  partition_of offset ends m ->
  m <= len flatCoords ->
  segments (flatCoords ++ extra) offset ends = segments flatCoords offset ends.
Proof.
  induction ends as [|e ends IH]; intros offset m H0 P Hm; cbn [segments]; [reflexivity|].
  destruct P as [P1 P2]. pose proof (partition_of_le _ _ _ P2) as P3.
  rewrite (IH e m) by (assumption || lia). f_equal.
  unfold len in Hm.
  rewrite skipn_app, firstn_app, length_skipn.
  replace (Z.to_nat (e - offset) - (length flatCoords - Z.to_nat offset))%nat with 0%nat by lia.
  cbn [firstn]. apply app_nil_r.
Qed.

(** X11. Scalars beyond the last end are not written: for a stride other
    than zero and ends that cut [flatCoords] into consecutive sub-arrays,
    [WriteFlatCoords2] writes the same [4 + 4*len(ends) + 8*len(flatCoords)]
    bytes whether or not more scalars follow in the buffer, and returns no
    error for them. *)
Theorem WriteFlatCoords2_ignores_tail order flatCoords extra ends stride :
  stride <> 0 ->
  partition_of 0 ends (len flatCoords) ->
  exists bs,
    written (WriteFlatCoords2 order (flatCoords ++ extra) ends stride) = Some bs /\
    written (WriteFlatCoords2 order flatCoords ends stride) = Some bs /\
    len bs = 4 + 4 * len ends + 8 * len flatCoords.
Proof.
  intros Hs P.
  destruct (segments_partition flatCoords ends 0 ltac:(lia) P) as [C _].
  cbn [Z.to_nat skipn] in C.
  exists (PutUint32 order (uint32 (len ends))
            ++ Level1_blocks order stride (segments flatCoords 0 ends)).
  split; [|split].
  - unfold written, WriteFlatCoords2, NewBuffer, binary_Write_uint32.
    run_with ltac:(apply io_Write_buffer).
    rewrite (WriteFlatCoords2_loop_within _ _ _ _ 0 _ (len flatCoords))
      by (assumption || lia || (rewrite len_app; pose proof (len_nonneg extra); lia)).
    rewrite (segments_app _ _ _ 0 (len flatCoords)) by (assumption || lia).
    reflexivity.
  - now apply written_WriteFlatCoords2.
  - rewrite len_app, len_Level1_blocks, C.
    unfold len at 1, PutUint32. rewrite length_PutUint.
    unfold len at 1. rewrite length_segments. fold (len ends). lia.
Qed.

Lemma WriteFlatCoords2_ignores_tail_witness :
  exists bs,
    written (WriteFlatCoords2 BigEndian ([f64 1; f64 2] ++ [f64 3; f64 4; f64 5]) [2] 2)
    = Some bs /\
    written (WriteFlatCoords2 BigEndian [f64 1; f64 2] [2] 2) = Some bs /\
    len bs = 4 + 4 * len [2] + 8 * len [f64 1; f64 2].
Proof.
  apply WriteFlatCoords2_ignores_tail.
  - discriminate.
  - cbn. lia.
Defined.

Lemma WriteFlatCoords2_loop_decreasing order flatCoords stride m end_ post pre :
  forall offset o,
  stride <> 0 ->
  0 <= offset ->
  partition_of offset pre m ->
  m <= len flatCoords ->
  end_ < m ->
  WriteFlatCoords2_loop order flatCoords stride offset (pre ++ end_ :: post)
    (mkWriter o None)
  = Panicked PanicSliceBounds.
Proof.
  induction pre as [|e pre IH]; intros offset o Hs H0 P Hm He.
  - cbn [partition_of] in P. subst m. cbn [app WriteFlatCoords2_loop].
    apply bind_Panicked. unfold slice.
    destruct (offset <=? end_) eqn:E; [apply Z.leb_le in E; lia|].
    now rewrite andb_false_r.
  - destruct P as [P1 P2]. pose proof (partition_of_le _ _ _ P2) as P3.
    cbn [app WriteFlatCoords2_loop].
    run_with ltac:(apply slice_ok; lia).
    run_with ltac:(now apply WriteFlatCoords1_buffer).
    apply IH; (assumption || lia).
Qed.

(** X12. An end below the one before it (or below zero, for the first):
    when the ends walked so far do not decrease and stay within the buffer,
    and the next end is smaller than the offset reached, [WriteFlatCoords2] on
    a stream that takes everything panics on the slice, for any stride other
    than zero. *)
Theorem WriteFlatCoords2_decreasing_ends order flatCoords stride pre m end_ post o :
  stride <> 0 ->
  partition_of 0 pre m ->
  m <= len flatCoords ->
  end_ < m ->
  WriteFlatCoords2 order flatCoords (pre ++ end_ :: post) stride (mkWriter o None)
  = Panicked PanicSliceBounds.
Proof.
  intros Hs P Hm He. unfold WriteFlatCoords2, binary_Write_uint32.
  run_with ltac:(apply io_Write_buffer).
  apply (WriteFlatCoords2_loop_decreasing _ _ _ m); (assumption || lia).
Qed.

Lemma WriteFlatCoords2_decreasing_ends_witness :
  WriteFlatCoords2 BigEndian [f64 1; f64 2; f64 3; f64 4] ([4] ++ 2 :: []) 2 NewBuffer
  = Panicked PanicSliceBounds.
Proof.
  apply (WriteFlatCoords2_decreasing_ends BigEndian _ 2 [4] 4 2 [] []).
  - discriminate.
  - cbn. lia.
  - discriminate.
  - reflexivity.
Defined.

(** ** Writing to a stream that runs out of room *)

Lemma streams_io_Write p : streams (io_Write p) p.
Proof. intros o k Hk. reflexivity. Qed.

Lemma streams_nil : streams (ret None) [].
Proof.
  intros o k Hk. unfold ret. change (len (@nil byte)) with 0.
  destruct (0 <=? k) eqn:E; [|apply Z.leb_gt in E; lia].
  now rewrite app_nil_r, Z.sub_0_r.
Qed.

(** Two writes in a row, the second one only when the first returns no
    error. *)
Lemma streams_seq m1 m2 a b :
  streams m1 a -> streams m2 b ->
  streams (err <- m1 ;; match err with Some e => ret (Some e) | None => m2 end) (a ++ b).
Proof.
  intros H1 H2 o k Hk. unfold bind. rewrite H1 by exact Hk.
  pose proof (len_nonneg a) as La. pose proof (len_nonneg b) as Lb.
  rewrite len_app.
  destruct (len a <=? k) eqn:Ea.
  - apply Z.leb_le in Ea. rewrite H2 by lia.
    destruct (len b <=? k - len a) eqn:Eb.
    + apply Z.leb_le in Eb.
      destruct (len a + len b <=? k) eqn:E; [|apply Z.leb_gt in E; lia].
      rewrite <- app_assoc. do 4 f_equal. lia.
    + apply Z.leb_gt in Eb.
      destruct (len a + len b <=? k) eqn:E; [apply Z.leb_le in E; lia|].
      rewrite <- app_assoc. do 4 f_equal.
      rewrite firstn_app. unfold len in *.
      rewrite (firstn_all2 a) by lia. f_equal. f_equal. lia.
  - apply Z.leb_gt in Ea.
    destruct (len a + len b <=? k) eqn:E; [apply Z.leb_le in E; lia|].
    unfold ret. do 4 f_equal.
    rewrite firstn_app. unfold len in *.
    replace (Z.to_nat k - length a)%nat with 0%nat by lia.
    cbn [firstn]. now rewrite app_nil_r.
Qed.

Lemma streams_WriteFlatCoords1 order coords stride :
  stride <> 0 ->
  streams (WriteFlatCoords1 order coords stride)
          (Level1_block order (uint32 (Z.quot (len coords) stride)) coords).
Proof.
  intros Hs o k Hk. unfold WriteFlatCoords1, int_div.
  destruct (stride =? 0) eqn:E; [apply Z.eqb_eq in E; contradiction|].
  unfold bind at 1, ret at 1. rewrite uint32_int_wrap.
  apply (streams_seq _ _ _ _ (streams_io_Write _) (streams_io_Write _)). exact Hk.
Qed.

Lemma streams_WriteFlatCoords2_loop order flatCoords stride ends : forall offset m,
  stride <> 0 ->
  0 <= offset ->
  partition_of offset ends m ->
  m <= len flatCoords ->
  streams (WriteFlatCoords2_loop order flatCoords stride offset ends)
          (Level1_blocks order stride (segments flatCoords offset ends)).
Proof.
  induction ends as [|e ends IH]; intros offset m Hs H0 P Hm.
  - apply streams_nil.
  - destruct P as [P1 P2]. pose proof (partition_of_le _ _ _ P2) as P3.
    intros o k Hk. cbn [WriteFlatCoords2_loop segments].
    run_with ltac:(apply slice_ok; lia).
    unfold Level1_blocks. cbn [flat_map].
    apply (streams_seq _ _ _ _ (streams_WriteFlatCoords1 _ _ _ Hs)
             (IH e m Hs ltac:(lia) P2 Hm)).
    exact Hk.
Qed.

(** X13. A short write, Level 1: for a stride other than zero, on a stream
    with room for [k] more bytes [WriteFlatCoords1] writes the whole block and
    returns no error when its [4 + 8*len(coords)] bytes fit; otherwise it
    writes the first [k] bytes of the block, returns the error of the stream
    and writes nothing after the write that failed. *)
Theorem WriteFlatCoords1_short_write order coords stride :
  stride <> 0 ->
  exists bs,
    written (WriteFlatCoords1 order coords stride) = Some bs /\
    len bs = 4 + 8 * len coords /\
    forall o k, 0 <= k ->
      WriteFlatCoords1 order coords stride (mkWriter o (Some k))
      = if len bs <=? k
        then Done (None, mkWriter (o ++ bs) (Some (k - len bs)))
        else Done (Some io_ErrShortWrite,
                   mkWriter (o ++ firstn (Z.to_nat k) bs) (Some 0)).
Proof.
  intros Hs. eexists. split; [now apply written_WriteFlatCoords1|]. split.
  - unfold Level1_block. rewrite len_app, len_encode_float64s.
    unfold len at 1, PutUint32. rewrite length_PutUint. lia.
  - now apply streams_WriteFlatCoords1.
Qed.

(** Room for seven bytes: the count and three bytes of the first scalar. *)
Lemma WriteFlatCoords1_short_write_witness :
  exists bs,
    written (WriteFlatCoords1 BigEndian [f64 1; f64 2] 2) = Some bs /\
    len bs = 4 + 8 * len [f64 1; f64 2] /\
    WriteFlatCoords1 BigEndian [f64 1; f64 2] 2 (mkWriter [] (Some 7))
    = Done (Some io_ErrShortWrite, mkWriter (firstn 7 bs) (Some 0)).
Proof.
  assert (Hs : 2 <> 0) by discriminate.
  destruct (WriteFlatCoords1_short_write BigEndian [f64 1; f64 2] 2 Hs) as (bs & W & L & S).
  exists bs. split; [exact W|]. split; [exact L|].
  assert (H7 : 0 <= 7) by discriminate.
  rewrite (S [] 7 H7). rewrite L. reflexivity.
Defined.

(** The sub-arrays of consecutive ends within the buffer hold as many scalars
    as lie between the offset and the last end. *)
Lemma len_concat_segments flatCoords ends : forall offset m,
  0 <= offset ->
  partition_of offset ends m ->
  m <= len flatCoords ->
  len (concat (segments flatCoords offset ends)) = m - offset.
Proof.
  induction ends as [|e ends IH]; intros offset m H0 P Hm; cbn [segments concat].
  - cbn [partition_of] in P. subst m. change (len (@nil float64)) with 0. lia.
  - destruct P as [P1 P2]. pose proof (partition_of_le _ _ _ P2) as P3.
    rewrite len_app, (IH e m) by (assumption || lia).
    rewrite len_segment by lia. lia.
Qed.

(** When the room runs out within the sub-arrays of [pre], the loop stops
    there: it returns the error whatever ends come after them. *)
Lemma WriteFlatCoords2_loop_stops order flatCoords stride m post pre :
  forall offset o k,
  stride <> 0 ->
  0 <= offset ->
  partition_of offset pre m ->
  m <= len flatCoords ->
  0 <= k < len (Level1_blocks order stride (segments flatCoords offset pre)) ->
  WriteFlatCoords2_loop order flatCoords stride offset (pre ++ post) (mkWriter o (Some k))
  = Done (Some io_ErrShortWrite,
          mkWriter (o ++ firstn (Z.to_nat k)
                           (Level1_blocks order stride (segments flatCoords offset pre)))
                   (Some 0)).
Proof.
  induction pre as [|e pre IH]; intros offset o k Hs H0 P Hm Hk.
  - change (len (Level1_blocks order stride (segments flatCoords offset []))) with 0 in Hk.
    lia.
  - destruct P as [P1 P2]. pose proof (partition_of_le _ _ _ P2) as P3.
    cbn [app WriteFlatCoords2_loop segments] in *.
    run_with ltac:(apply slice_ok; lia).
    set (b := firstn (Z.to_nat (e - offset)) (skipn (Z.to_nat offset) flatCoords)) in *.
    unfold Level1_blocks in Hk |- *. cbn [flat_map] in Hk |- *.
    fold (Level1_blocks order stride (segments flatCoords e pre)) in Hk |- *.
    set (B := Level1_block order (uint32 (Z.quot (len b) stride)) b) in *.
    rewrite len_app in Hk. pose proof (len_nonneg B) as LB.
    unfold bind. rewrite (streams_WriteFlatCoords1 order b stride Hs o k) by lia.
    fold B. destruct (len B <=? k) eqn:E.
    + apply Z.leb_le in E.
      rewrite (IH e (o ++ B) (k - len B)) by (assumption || lia).
      rewrite <- app_assoc. do 4 f_equal.
      rewrite firstn_app. unfold len in *.
      rewrite (firstn_all2 B) by lia. f_equal. f_equal. lia.
    + apply Z.leb_gt in E. unfold ret. do 4 f_equal.
      rewrite firstn_app. unfold len in *.
      replace (Z.to_nat k - length B)%nat with 0%nat by lia.
      cbn [firstn]. now rewrite app_nil_r.
Qed.

(** X14. A short write, Level 2, for a stride other than zero, on a stream
    with room for [k] more bytes.  When [k] is too small for the outer count
    and the sub-arrays of the ends [pre], [WriteFlatCoords2] writes the first
    [k] of their bytes and returns the error of the stream at once: the
    result is the same whatever ends [post] come after them, also ends that
    are out of bounds, whose slice is never taken.  When all the bytes fit
    (and no end comes after), it writes them all and returns no error. *)
Theorem WriteFlatCoords2_short_write order flatCoords pre post stride m o k :
  stride <> 0 ->
  partition_of 0 pre m ->
  m <= len flatCoords ->
  0 <= k ->
  let bs := PutUint32 order (uint32 (len (pre ++ post)))
              ++ Level1_blocks order stride (segments flatCoords 0 pre) in
  len bs = 4 + 4 * len pre + 8 * m /\
  (k < len bs ->
   WriteFlatCoords2 order flatCoords (pre ++ post) stride (mkWriter o (Some k))
   = Done (Some io_ErrShortWrite, mkWriter (o ++ firstn (Z.to_nat k) bs) (Some 0))) /\
  (post = [] -> len bs <= k ->
   WriteFlatCoords2 order flatCoords pre stride (mkWriter o (Some k))
   = Done (None, mkWriter (o ++ bs) (Some (k - len bs)))).
Proof.
  intros Hs P Hm Hk bs.
  set (c := PutUint32 order (uint32 (len (pre ++ post)))) in *.
  set (blocks := Level1_blocks order stride (segments flatCoords 0 pre)) in *.
  assert (Lc : len c = 4) by (unfold c, len, PutUint32; now rewrite length_PutUint).
  assert (Lb : len blocks = 4 * len pre + 8 * m).
  { unfold blocks. rewrite len_Level1_blocks.
    unfold len at 1. rewrite length_segments. fold (len pre).
    rewrite (len_concat_segments flatCoords pre 0 m) by (assumption || lia).
    lia. }
  assert (L : len bs = 4 + 4 * len pre + 8 * m)
    by (unfold bs; rewrite len_app, Lc, Lb; lia).
  split; [exact L|]. split.
  - intros Hlt. unfold WriteFlatCoords2, binary_Write_uint32.
    unfold bind. rewrite (streams_io_Write _ o k Hk). fold c. rewrite Lc.
    destruct (4 <=? k) eqn:E4.
    + apply Z.leb_le in E4.
      rewrite (WriteFlatCoords2_loop_stops order flatCoords stride m post pre 0 (o ++ c) (k - 4))
        by (assumption || (fold blocks; lia) || lia).
      fold blocks. unfold bs. rewrite <- app_assoc. do 4 f_equal.
      rewrite firstn_app. unfold len in Lc.
      rewrite (firstn_all2 c) by lia. f_equal. f_equal. lia.
    + apply Z.leb_gt in E4. unfold ret, bs. do 4 f_equal.
      rewrite firstn_app. unfold len in Lc.
      replace (Z.to_nat k - length c)%nat with 0%nat by lia.
      cbn [firstn]. now rewrite app_nil_r.
  - intros -> Hfit.
    assert (S : streams (WriteFlatCoords2 order flatCoords pre stride) bs).
    { unfold WriteFlatCoords2, binary_Write_uint32, bs, c, blocks.
      rewrite app_nil_r.
      apply streams_seq; [apply streams_io_Write|].
      apply (streams_WriteFlatCoords2_loop _ _ _ _ 0 m); (assumption || lia). }
    rewrite (S o k Hk). apply Z.leb_le in Hfit. now rewrite Hfit.
Qed.

(** Room for ten bytes, and a second end below the first: the outer count
    and six bytes of the first block are written, the error is returned, and
    the slice [2:1] of the second sub-array is never taken. *)
Lemma WriteFlatCoords2_short_write_witness :
  WriteFlatCoords2 BigEndian [f64 1; f64 2; f64 3; f64 4] ([2] ++ [1]) 2 (mkWriter [] (Some 10))
  = Done (Some io_ErrShortWrite,
          mkWriter (firstn 10 (PutUint32 BigEndian 2 ++ Level1_block BigEndian 1 [f64 1; f64 2]))
                   (Some 0)).
Proof.
  assert (Hs : 2 <> 0) by discriminate.
  assert (P : partition_of 0 [2] 2) by (cbn; lia).
  assert (Hm : 2 <= len [f64 1; f64 2; f64 3; f64 4]) by discriminate.
  assert (Hk : 0 <= 10) by discriminate.
  destruct (WriteFlatCoords2_short_write BigEndian [f64 1; f64 2; f64 3; f64 4]
              [2] [1] 2 2 [] 10 Hs P Hm Hk) as (L & S & _).
  rewrite S by (rewrite L; reflexivity). reflexivity.
Defined.

(** ** The messages of the errors *)

Lemma append_inj_at c s1 : forall s2 t1 t2,
  no_char c s1 -> no_char c s2 ->
  String.append s1 (String.String c t1) = String.append s2 (String.String c t2) ->
  s1 = s2 /\ t1 = t2.
Proof.
  induction s1 as [|a s1 IH]; intros [|b s2] t1 t2 N1 N2 E; cbn in *.
  - injection E as <-. split; reflexivity.
  - injection E as <- _. destruct N2 as [N2 _]. contradiction.
  - injection E as -> _. destruct N1 as [N1 _]. contradiction.
  - injection E as <- E. destruct N1 as [_ N1]. destruct N2 as [_ N2].
    destruct (IH _ _ _ N1 N2 E) as [-> ->]. split; reflexivity.
Qed.

Lemma append_inj_l s : forall t t', String.append s t = String.append s t' -> t = t'.
Proof.
  induction s as [|a s IH]; intros t t' E; cbn in E; [exact E|].
  injection E. apply IH.
Qed.

(** A number in base 10 holds no blank and no parenthesis. *)
Lemma no_char_uint c d :
  In c [" "%char; ")"%char] ->
  no_char c (DecimalString.NilEmpty.string_of_uint d).
Proof.
  intros H. induction d; cbn; (exact I || (split; [|exact IHd]));
    destruct H as [<- | [<- | []]]; discriminate.
Qed.

Lemma no_char_fmt_d c z : In c [" "%char; ")"%char] -> no_char c (fmt_d z).
Proof.
  intros H. unfold fmt_d.
  assert (U : forall d, no_char c (DecimalString.NilZero.string_of_uint d)).
  { intros d. destruct d; try apply (no_char_uint c _ H).
    cbn. split; [|exact I]. destruct H as [<- | [<- | []]]; discriminate. }
  destruct (Z.to_int z) as [d|d]; cbn [DecimalString.NilZero.string_of_int no_char].
  - apply U.
  - split; [|apply U]. destruct H as [<- | [<- | []]]; discriminate.
Qed.

Lemma to_int_nonnil z :
  Z.to_int z <> Decimal.Pos Decimal.Nil /\ Z.to_int z <> Decimal.Neg Decimal.Nil.
Proof.
  destruct z as [|p|p]; cbn; split; try discriminate;
    intros [= E]; now apply DecimalPos.Unsigned.to_uint_nonnil in E.
Qed.

Lemma fmt_d_inj z z' : fmt_d z = fmt_d z' -> z = z'.
Proof.
  unfold fmt_d. intros E. apply DecimalZ.to_int_inj.
  apply (f_equal DecimalString.NilZero.int_of_string) in E.
  destruct (to_int_nonnil z) as [A B]. destruct (to_int_nonnil z') as [A' B'].
  rewrite !DecimalString.NilZero.isi in E by assumption. now injection E.
Qed.

Lemma fmt_b_inj z z' : 0 <= z -> 0 <= z' -> fmt_b z = fmt_b z' -> z = z'.
Proof.
  assert (P : forall p, BinaryString.Raw.to_N (BinaryString.Raw.of_pos p String.EmptyString) 0
                        = N.pos p)
    by (intros p; apply BinaryString.Raw.to_N_of_pos).
  intros H H' E. apply (f_equal (fun s => BinaryString.Raw.to_N s 0%N)) in E.
  destruct z as [|p|p]; destruct z' as [|p'|p']; try lia; cbn [fmt_b] in E;
    rewrite ?P in E; try reflexivity; try discriminate.
  now injection E as ->.
Qed.

Lemma ErrGeometryTooLarge_Error_inj l n m l' n' m' :
  ErrGeometryTooLarge_Error l n m = ErrGeometryTooLarge_Error l' n' m' ->
  l = l' /\ n = n' /\ m = m'.
Proof.
  intros E. unfold ErrGeometryTooLarge_Error in E.
  apply append_inj_l in E.
  change (String.append " (" ?x) with (String.String " " (String.String "(" x)) in E.
  apply append_inj_at in E; try (apply no_char_fmt_d; cbn; tauto).
  destruct E as [E1 E]. injection E as E.
  change (String.append ") exceeds " ?x)
    with (String.String ")" (String.append " exceeds " x)) in E.
  apply append_inj_at in E; try (apply no_char_fmt_d; cbn; tauto).
  destruct E as [E2 E3]. injection E3 as E3.
  repeat split; now apply fmt_d_inj.
Qed.

(** X15. The message tells the error: two errors of the package whose
    [Error()] strings are equal are the same error, of the same type and with
    the same byte, type code or level, count and limit. *)
Theorem Error_injective e e' s :
  Error e = Some s -> Error e' = Some s -> e = e'.
Proof.
  intros H0 H'.
  destruct e as [ | | | c | b | | t | t | l n m]; cbn [Error] in H0; try discriminate H0;
    destruct e' as [ | | | c' | b' | | t' | t' | l' n' m']; cbn [Error] in H';
    try discriminate H';
    assert (H := eq_trans H0 (eq_sym H')); clear H0 H';
    apply (f_equal (fun o => match o with Some x => x | None => String.EmptyString end)) in H;
    cbv beta iota in H;
    try (cbv [ErrUnknownByteOrder_Error ErrUnsupportedByteOrder_Error ErrUnknownType_Error
              ErrUnsupportedType_Error ErrGeometryTooLarge_Error] in H;
         cbn [String.append] in H; discriminate H).
  - apply append_inj_l in H. f_equal. apply byte.unsigned_inj.
    apply fmt_b_inj; [apply byte.unsigned_range | apply byte.unsigned_range | exact H].
  - reflexivity.
  - apply append_inj_l in H. f_equal. now apply fmt_d_inj.
  - apply append_inj_l in H. f_equal. now apply fmt_d_inj.
  - apply ErrGeometryTooLarge_Error_inj in H as (-> & -> & ->). reflexivity.
Qed.

Lemma Error_injective_witness :
  ErrGeometryTooLarge 1 1048577 1048576 = ErrGeometryTooLarge 1 (2 ^ 20 + 1) (2 ^ 20).
Proof.
  apply (Error_injective _ _
           "wkb: number of elements at level 1 (1048577) exceeds 1048576"%string).
  - vm_compute. reflexivity.
  - vm_compute. reflexivity.
Defined.

(** ** Level 2: a stream that ends between two sub-arrays *)




(** ** Writing with the stride zero *)

(** The stride zero on the write side: [WriteFlatCoords1] panics on the
    division [len(coords)/stride], whatever the scalars and the stream;
    [WriteFlatCoords2] returns when there are no ends and, on a stream that
    takes everything, panics in the same way as soon as there is a first
    sub-array to write. *)
Lemma Write_stride_zero order flatCoords :
  (forall w, WriteFlatCoords1 order flatCoords 0 w = Panicked PanicDivideByZero) /\
  (forall w, exists err w', WriteFlatCoords2 order flatCoords [] 0 w = Done (err, w')) /\
  (forall end_ ends o,
     0 <= end_ <= len flatCoords ->
     WriteFlatCoords2 order flatCoords (end_ :: ends) 0 (mkWriter o None)
     = Panicked PanicDivideByZero).
Proof.
  split; [|split].
  - intros w. reflexivity.
  - intros w. unfold WriteFlatCoords2, binary_Write_uint32, bind, io_Write.
    destruct (room w) as [k|]; [destruct (_ <=? k)|]; do 2 eexists; reflexivity.
  - intros e ends o He. unfold WriteFlatCoords2, binary_Write_uint32.
    run_with ltac:(apply io_Write_buffer).
    cbn [WriteFlatCoords2_loop].
    run_with ltac:(apply slice_ok; lia).
    reflexivity.
Qed.

(** ** Raising the limits *)

Lemma ReadFlatCoords1_raise limits limits' order stride r fc r' :
  limit limits 1 <= limit limits' 1 ->
  ReadFlatCoords1 limits order stride r = Done ((fc, None), r') ->
  ReadFlatCoords1 limits' order stride r = Done ((fc, None), r').
Proof.
  intros Hl H.
  pose proof (ReadFlatCoords1_inv _ _ _ _ _ _ H) as (n & r1 & E & G & _).
  rewrite (ReadFlatCoords1_payload limits _ _ _ _ _ E G) in H.
  rewrite (ReadFlatCoords1_payload limits' _ _ _ _ _ E) by lia.
  exact H.
Qed.

Lemma Level1_reads_raise limits limits' order stride r blocks r' :
  limit limits 1 <= limit limits' 1 ->
  Level1_reads limits order stride r blocks r' ->
  Level1_reads limits' order stride r blocks r'.
Proof.
  intros Hl. induction 1 as [r | r fc r1 blocks r2 E R IH]; [constructor|].
  econstructor; [|exact IH]. eapply ReadFlatCoords1_raise; eassumption.
Qed.

(** Level-1 reads that succeed one after the other make the loop return
    what they return. *)
Lemma ReadFlatCoords2_loop_reads limits order stride r blocks r' :
  Level1_reads limits order stride r blocks r' ->
  forall acc ends,
    ReadFlatCoords2_loop limits order stride (length blocks) acc ends r
    = Done ((acc ++ concat blocks, ends ++ ends_from (len acc) blocks, None), r').
Proof.
  induction 1 as [r | r fc r1 blocks r2 E R IH]; intros acc ends.
  - cbn. now rewrite !app_nil_r.
  - cbn [length]. rewrite ReadFlatCoords2_loop_S, E, IH.
    cbn [concat ends_from]. rewrite <- !app_assoc, len_app. reflexivity.
Qed.

(** X18. Raising the limits keeps what is read: a Level-1 or Level-2 read
    that returns without error under one table of limits returns the same
    scalars and ends, and leaves the stream in the same state, under any table
    whose limits for the levels 1 and 2 are not smaller. *)
Theorem ReadFlatCoords_raise_limits limits limits' order stride r :
  limit limits 1 <= limit limits' 1 ->
  limit limits 2 <= limit limits' 2 ->
  (forall flatCoords r',
     ReadFlatCoords1 limits order stride r = Done ((flatCoords, None), r') ->
     ReadFlatCoords1 limits' order stride r = Done ((flatCoords, None), r')) /\
  (forall flatCoords ends r',
     ReadFlatCoords2 limits order stride r = Done ((flatCoords, ends, None), r') ->
     ReadFlatCoords2 limits' order stride r = Done ((flatCoords, ends, None), r')).
Proof.
  intros H1 H2. split.
  - intros fc r'. now apply ReadFlatCoords1_raise.
  - intros fc ends r' H.
    apply ReadFlatCoords2_success in H as (n & r1 & blocks & E & [Hn Hl] & L & R & -> & ->).
    apply (Level1_reads_raise _ limits' _ _ _ _ _ H1) in R.
    unfold ReadFlatCoords2. run_with ltac:(exact E).
    destruct (n >? limit limits' 2) eqn:G; [apply Z.gtb_lt in G; lia|].
    replace (Z.to_nat n) with (length blocks) by (unfold len in L; lia).
    apply (ReadFlatCoords2_loop_reads _ _ _ _ _ _ R [] []).
Qed.

(** Read with all limits at 3, then with the limits of the package. *)
Lemma ReadFlatCoords_raise_limits_witness :
  ReadFlatCoords1 MaxGeometryElements BigEndian 2
    (NewReader (Level1_block BigEndian 1 [f64 1; f64 2]))
  = Done (([f64 1; f64 2], None), mkReader [] io_EOF [16; 4]).
Proof.
  assert (H1 : limit [0; 3; 3; 3] 1 <= limit MaxGeometryElements 1) by discriminate.
  assert (H2 : limit [0; 3; 3; 3] 2 <= limit MaxGeometryElements 2) by discriminate.
  apply (proj1 (ReadFlatCoords_raise_limits [0; 3; 3; 3] MaxGeometryElements BigEndian 2
                  (NewReader (Level1_block BigEndian 1 [f64 1; f64 2])) H1 H2)).
  vm_compute. reflexivity.
Defined.
